(** * expresso.compression: the sky-map codec, embedded and verified

    A shallow embedding of [src/expresso/compression.py], followed by the
    resolution helpers of [src/expresso/utils.py], the map wrapper of
    [src/expresso/skymap.py] and the settings of [src/expresso/config.py].

    Modelling choices, all of them visible in the definitions below:
    - a float64 is the rational it stands for ([Q]).  Samples are only
      copied, compared and stripped of their sign, which is exact.  Where
      the code computes with floats (the product [len * ratio], the
      quotient and the saving of [get_compression_info]) the result is
      rounded to binary64 by [round64], to nearest and ties to even,
      subnormal range included.  The non-finite values (NaN, infinities)
      and overflow lie outside the model;
    - an [np.ndarray] is its shape together with its elements in row-major
      order, eight bytes per element (float64, and int64 for index arrays);
    - a Python exception is a value of [exn]; a [warnings.warn] call and
      the creation of a fresh numpy array are entries of an event log; a
      function body is a computation in the monad [M] that threads both;
    - the dictionaries that travel between the functions are records, one
      field per key;
    - keyword arguments are passed explicitly: the [**kwargs] bag is
      handed on and never read, so it is left out. *)

From Stdlib Require Import ZArith QArith Qround Qabs Qpower Lia Lqa.
From stdpp Require Import base strings list sorting gmap.

Open Scope string_scope.
Open Scope list_scope.
Open Scope Z_scope.

(** * Part I: the program *)

(** ** Exceptions, warnings and allocations *)

Inductive exn : Type :=
  | CompressionError (msg : string)   (* class CompressionError(Exception) *)
  | TypeError                         (* raised inside numpy *)
  | ValueError                        (* raised inside numpy *)
  | IndexError.                       (* raised inside numpy *)

Inductive event : Type :=
  | UserWarning (msg : string)        (* warnings.warn(msg, UserWarning) *)
  | Alloc (n : nat).                  (* a new array of [n] elements *)

(** A computation: what it logged, and how it ended. *)
Definition M (A : Type) : Type := (list event * (exn + A))%type.

Definition ret {A} (x : A) : M A := ([], inr x).
Definition raise {A} (e : exn) : M A := ([], inl e).
Definition emit (ev : event) : M unit := ([ev], inr tt).
Definition bind {A B} (m : M A) (k : A -> M B) : M B :=
  match m with
  | (log, inl e) => (log, inl e)
  | (log, inr x) => let (log', r) := k x in (log ++ log', r)
  end.

Notation "x <- m ;; k" := (bind m (fun x => k))
  (at level 100, m at next level, right associativity).
Notation "m ;;; k" := (bind m (fun _ => k))
  (at level 100, right associativity).

Definition events {A} (m : M A) : list event := fst m.
Definition outcome {A} (m : M A) : exn + A := snd m.

(** ** Arrays *)

Record ndarray : Type := { shape : list nat; data : list Q }.

(** The number of elements a shape announces. *)
Definition product (s : list nat) : nat := foldr Nat.mul 1%nat s.

(** An array holds as many elements as its shape says. *)
Definition well_formed (a : ndarray) : Prop := length (data a) = product (shape a).

(** [x.nbytes] for an eight-byte element type. *)
Definition nbytes {A} (l : list A) : Z := 8 * Z.of_nat (length l).

(** [skymap.flatten()]: a one-dimensional copy in row-major order. *)
Definition flatten (a : ndarray) : M (list Q) :=
  emit (Alloc (length (data a))) ;;; ret (data a).

(** [np.abs(x)]. *)
Definition np_abs (x : list Q) : M (list Q) :=
  emit (Alloc (length x)) ;;; ret (Qabs <$> x).

(** [int(q)]: truncation toward zero. *)
Definition py_int (q : Q) : Z :=
  if Qle_bool 0 q then Qfloor q else Qceiling q.

(** *** Float arithmetic

    A binary64 value is an integer of at most 53 bits times a power of
    two, the power not below -1074.  [binade x] is the [e] with
    [2^e <= |x| < 2^(e+1)], [grid x] the exponent of the spacing of the
    binary64 values around [x], and [round64 x] the value nearest to [x]
    on that grid, the even one of two that are equally near.  An
    operation on floats is the exact operation followed by [round64]. *)

Definition exp2 (e : Z) : Q := (2 ^ e)%Q.

Definition binade (x : Q) : Z :=
  let e := Z.log2 (Z.abs (Qnum x)) - Z.log2 (Zpos (Qden x)) in
  if Qle_bool (exp2 e) (Qabs x) then e else e - 1.

Definition round_half_even (t : Q) : Z :=
  let f := Qfloor t in
  match (t - inject_Z f ?= 1 # 2)%Q with
  | Lt => f
  | Gt => f + 1
  | Eq => if Z.even f then f else f + 1
  end.

Definition grid (x : Q) : Z := Z.max (binade x - 52) (-1074).

Definition round64 (x : Q) : Q :=
  if Qeq_bool x 0 then 0%Q
  else (inject_Z (round_half_even (x / exp2 (grid x))) * exp2 (grid x))%Q.

(** [float(n)] for an [int], [x * y] and [x - y] for floats, and [n / m]
    for two [int]s, which Python rounds once, from the exact quotient. *)
Definition float_of_int (n : Z) : Q := round64 (inject_Z n).
Definition fmul (x y : Q) : Q := round64 (x * y).
Definition fsub (x y : Q) : Q := round64 (x - y).
Definition int_truediv (n m : Z) : Q := round64 (inject_Z n / inject_Z m).

(** *** [np.argsort]

    The default kind sorts the index array [0, 1, ..., n-1] by the keys the
    indices point to.  numpy is not part of the sources; its default sort
    promises ascending keys and no order among equal keys, and which order
    it gives them depends on the build.  The model fixes one admissible
    order, that of an insertion pass: the next index moves left past each
    index whose key is strictly greater, so that equal keys stay in input
    order.  The general statements below rest on the keys being ascending
    and on the result being a permutation, never on the order of equal
    keys.  [sorted_rev] is the part already sorted, read from right to
    left. *)

Definition Qlt_bool (x y : Q) : bool := negb (Qle_bool y x).

Definition key (v : list Q) (i : nat) : Q := nth i v 0%Q.

Fixpoint shift_in (v : list Q) (vi : nat) (sorted_rev : list nat) : list nat :=
  match sorted_rev with
  | [] => [vi]
  | pk :: rest =>
      if Qlt_bool (key v vi) (key v pk)
      then pk :: shift_in v vi rest
      else vi :: sorted_rev
  end.

(** The first [n] indices, inserted one after the other. *)
Definition insertion_pass (v : list Q) (n : nat) : list nat :=
  foldl (fun acc i => shift_in v i acc) [] (seq 0 n).

Definition aquicksort (v : list Q) : list nat := rev (insertion_pass v (length v)).

Definition np_argsort (v : list Q) : M (list Z) :=
  emit (Alloc (length v)) ;;; ret (Z.of_nat <$> aquicksort v).

(** *** Indexing *)

(** [l[start:]], the bound clipped to the list. *)
Definition slice_from {A} (start : Z) (l : list A) : list A :=
  let n := Z.of_nat (length l) in
  let lo := if start <? 0 then Z.max (n + start) 0 else Z.min start n in
  drop (Z.to_nat lo) l.

(** One integer index into an axis of length [n]: a negative index counts
    from the end, anything outside [-n, n) is out of bounds. *)
Definition normalize_index (n : nat) (i : Z) : option nat :=
  if (0 <=? i) && (i <? Z.of_nat n) then Some (Z.to_nat i)
  else if (- Z.of_nat n <=? i) && (i <? 0) then Some (Z.to_nat (i + Z.of_nat n))
  else None.

(** Every index of an index array, checked against the axis. *)
Definition check_indices (n : nat) (indices : list Z) : M (list nat) :=
  match mapM (normalize_index n) indices with
  | Some js => ret js
  | None => raise IndexError
  end.

(** [x[indices]] for an integer index array: a new array. *)
Definition getitem (x : list Q) (indices : list Z) : M (list Q) :=
  js <- check_indices (length x) indices ;;
  emit (Alloc (length js)) ;;;
  ret ((fun j => nth j x 0%Q) <$> js).

(** The value array broadcast to the length of the index array: equal
    lengths pair up, a single value is repeated, anything else is a shape
    mismatch. *)
Definition broadcast_to (n : nat) (vals : list Q) : M (list Q) :=
  if decide (length vals = n) then ret vals
  else match vals with
       | [v] => ret (replicate n v)
       | _ => raise ValueError
       end.

(** The writes of an indexed assignment, made in order: a repeated index
    keeps the last value. *)
Definition scatter (x : list Q) (js : list nat) (vs : list Q) : list Q :=
  foldl (fun acc jv => <[fst jv := snd jv]> acc) x (zip js vs).

(** [x[indices] = vals], in place: the values are broadcast to the index
    array, the indices checked against the axis, and the values written. *)
Definition setitem (x : list Q) (indices : list Z) (vals : list Q) : M (list Q) :=
  vs <- broadcast_to (length indices) vals ;;
  js <- check_indices (length x) indices ;;
  ret (scatter x js vs).

(** [np.prod(shape)] as a size for [np.zeros].  A tuple with entries
    multiplies to an integer.  The empty tuple converts to an empty float64
    array, whose product is the float [1.0]: not a size. *)
Definition np_prod (s : list nat) : option nat :=
  match s with
  | [] => None
  | _ => Some (product s)
  end.

(** [np.zeros(np.prod(shape))]. *)
Definition np_zeros_prod (s : list nat) : M (list Q) :=
  match np_prod s with
  | None => raise TypeError
  | Some n => emit (Alloc n) ;;; ret (replicate n 0%Q)
  end.

(** [flat.reshape(shape)]: a view, refused when the sizes differ. *)
Definition reshape (flat : list Q) (s : list nat) : M ndarray :=
  if decide (length flat = product s) then ret {| shape := s; data := flat |}
  else raise ValueError.

(** ** The dictionaries *)

(** The compressed data, one field per key.  ["method"] is read with
    [dict.get] and tested for [None] by [decompress_skymap], so it is
    optional here.  The other keys are read by subscript: a record stands
    for a dictionary that holds them all, and the [KeyError] a dictionary
    without ["shape"], ["indices"] or ["values"] meets in
    [_decompress_wavelet] is not represented. *)
Module Env.
Record t : Type := {
  method : option string;
  shape : list nat;
  indices : list Z;
  values : list Q;
  compression_ratio : Q;
  original_size : Z;
  compressed_size : Z
}.
End Env.

(** What [get_compression_info] returns. *)
Module Info.
Record t : Type := {
  method : string;
  original_size_bytes : Z;
  compressed_size_bytes : Z;
  compression_ratio : Q;
  space_saved_percent : Q;
  shape : list nat
}.
End Info.

(** What the two entry points may be handed; each tests its argument with
    [isinstance]. *)
Inductive pyobj : Type :=
  | Ndarray (a : ndarray)
  | Dict (d : Env.t)
  | Other.

(** ** The codec *)

Definition _compress_wavelet (skymap : ndarray) (compression_ratio : Q) : M Env.t :=
  flat_map <- flatten skymap ;;
  let n_keep :=
    Z.max 1 (py_int (fmul (float_of_int (Z.of_nat (length flat_map)))
                          compression_ratio)) in
  mags <- np_abs flat_map ;;
  order <- np_argsort mags ;;
  let indices := slice_from (- n_keep) order in
  compressed_values <- getitem flat_map indices ;;
  ret {| Env.method := Some "wavelet";
         Env.shape := shape skymap;
         Env.indices := indices;
         Env.values := compressed_values;
         Env.compression_ratio := compression_ratio;
         Env.original_size := nbytes (data skymap);
         Env.compressed_size := nbytes indices + nbytes compressed_values |}.

Definition _decompress_wavelet (compressed_data : Env.t) : M ndarray :=
  let shape := Env.shape compressed_data in
  let indices := Env.indices compressed_data in
  let values := Env.values compressed_data in
  flat_map <- np_zeros_prod shape ;;
  flat_map <- setitem flat_map indices values ;;
  reshape flat_map shape.

Definition _compress_pca (skymap : ndarray) (compression_ratio : Q) : M Env.t :=
  emit (UserWarning "PCA compression is not yet fully implemented") ;;;
  _compress_wavelet skymap compression_ratio.

Definition _decompress_pca (compressed_data : Env.t) : M ndarray :=
  emit (UserWarning "PCA decompression is not yet fully implemented") ;;;
  _decompress_wavelet compressed_data.

Definition _compress_svd (skymap : ndarray) (compression_ratio : Q) : M Env.t :=
  emit (UserWarning "SVD compression is not yet fully implemented") ;;;
  _compress_wavelet skymap compression_ratio.

Definition _decompress_svd (compressed_data : Env.t) : M ndarray :=
  emit (UserWarning "SVD decompression is not yet fully implemented") ;;;
  _decompress_wavelet compressed_data.

(** [0 < compression_ratio < 1]. *)
Definition ratio_ok (r : Q) : bool := Qlt_bool 0 r && Qlt_bool r 1.

Definition ratio_error : exn :=
  CompressionError "Compression ratio must be between 0 and 1".

Definition method_error (m : string) : exn :=
  CompressionError ("Unknown compression method: " +:+ m).

Definition compress_skymap (skymap : pyobj) (method : string)
    (compression_ratio : Q) : M Env.t :=
  match skymap with
  | Ndarray a =>
      if negb (ratio_ok compression_ratio) then raise ratio_error
      else if String.eqb method "wavelet" then _compress_wavelet a compression_ratio
      else if String.eqb method "pca" then _compress_pca a compression_ratio
      else if String.eqb method "svd" then _compress_svd a compression_ratio
      else raise (method_error method)
  | _ => raise (CompressionError "Input must be a numpy array")
  end.

Definition decompress_skymap (compressed_data : pyobj) : M ndarray :=
  match compressed_data with
  | Dict d =>
      match Env.method d with
      | None => raise (CompressionError "Compression method not found in data")
      | Some method =>
          if String.eqb method "wavelet" then _decompress_wavelet d
          else if String.eqb method "pca" then _decompress_pca d
          else if String.eqb method "svd" then _decompress_svd d
          else raise (method_error method)
      end
  | _ => raise (CompressionError "Compressed data must be a dictionary")
  end.

(** The two sizes are [int]s.  Their quotient overflows, and the saving
    becomes infinite, only from magnitudes of about 2^1000 on, which the
    statements below stay away from. *)
Definition get_compression_info (compressed_data : Env.t) : Info.t :=
  let original_size := Env.original_size compressed_data in
  let compressed_size := Env.compressed_size compressed_data in
  let ratio :=
    if 0 <? original_size
    then int_truediv compressed_size original_size
    else 0%Q in
  {| Info.method := default "unknown" (Env.method compressed_data);
     Info.original_size_bytes := original_size;
     Info.compressed_size_bytes := compressed_size;
     Info.compression_ratio := ratio;
     Info.space_saved_percent := fmul (fsub 1 ratio) 100;
     Info.shape := Env.shape compressed_data |}.

(** ** [utils]: the resolution parameter of a HEALPix map

    From [src/expresso/utils.py].  Python integers are unbounded, and [&]
    on them is [Z.land]. *)

(** What [validate_nside] may be handed: an [int], or something else. *)
Inductive pyarg : Type :=
  | PyInt (n : Z)
  | NotInt.

Definition validate_nside (nside : pyarg) : bool :=
  match nside with
  | NotInt => false
  | PyInt n => if n <=? 0 then false else Z.land n (n - 1) =? 0
  end.

(** The loop of [get_valid_nside_values], [None] when the fuel runs out
    before the loop condition fails. *)
Fixpoint while_nside (fuel : nat) (max_nside nside : Z) (nside_values : list Z)
    : option (list Z) :=
  match fuel with
  | O => None
  | S fuel' =>
      if nside <=? max_nside
      then while_nside fuel' max_nside (nside * 2) (nside_values ++ [nside])
      else Some nside_values
  end.

Definition get_valid_nside_values (fuel : nat) (max_nside : Z) : option (list Z) :=
  while_nside fuel max_nside 1 [].

(** ** [skymap]: the map wrapper

    From [src/expresso/skymap.py]: the constructor and the methods that
    build a new map.  The metadata dictionary is carried along and never
    looked into; its values are opaque strings here.  The log of these
    methods records their warnings only. *)

Module SkyMap.
Record t : Type := {
  data : ndarray;
  nside : option Z;
  coordinate_system : string;
  units : string;
  metadata : list (string * string)
}.
End SkyMap.

(** What the methods raise: [SkyMapError], or an exception of the
    interpreter or of numpy. *)
Inductive sky_exn : Type :=
  | SkyMapError (msg : string)
  | Builtin (e : exn)
  | ZeroDivisionError.

Definition MS (A : Type) : Type := (list event * (sky_exn + A))%type.

Definition ndim (a : ndarray) : nat := length (shape a).

(** [SkyMap(data, nside, coordinate_system, units, metadata)]. *)
Definition SkyMap__init__ (data : ndarray) (nside : option Z)
    (coordinate_system units : string)
    (metadata : option (list (string * string))) : sky_exn + SkyMap.t :=
  let self :=
    {| SkyMap.data := data;
       SkyMap.nside := nside;
       SkyMap.coordinate_system := coordinate_system;
       SkyMap.units := units;
       SkyMap.metadata := default [] metadata |} in
  if negb ((ndim data =? 1)%nat || (ndim data =? 2)%nat)
  then inl (SkyMapError "Sky map data must be 1D or 2D array")
  else match nside with
       | Some n => if n <=? 0 then inl (SkyMapError "nside must be positive")
                   else inr self
       | None => inr self
       end.

(** [self.npix]: [self.data.size]. *)
Definition npix (self : SkyMap.t) : nat := length (data (SkyMap.data self)).

(** [self.copy()]. *)
Definition copy (self : SkyMap.t) : MS SkyMap.t :=
  ([],
   SkyMap__init__ (SkyMap.data self) (SkyMap.nside self)
     (SkyMap.coordinate_system self) (SkyMap.units self)
     (Some (SkyMap.metadata self))).

(** [self.smooth(fwhm)]. *)
Definition smooth (self : SkyMap.t) (fwhm : Q) : MS SkyMap.t :=
  let (log, r) := copy self in
  (UserWarning "Smoothing is not yet fully implemented" :: log, r).

Definition ceil_div (n d : nat) : nat := ((n + d - 1) / d)%nat.

(** [x[::step]] on a one-dimensional array: every [step]-th element from
    the first one on, or, for a negative step, from the last one back;
    [None] stands for the [ValueError] of a zero step. *)
Definition slice_step (x : list Q) (step : Z) : option (list Q) :=
  let n := length x in
  let s := Z.abs_nat step in
  if step =? 0 then None
  else if 0 <? step
  then Some ((fun k => nth (k * s) x 0%Q) <$> seq 0 (ceil_div n s))
  else Some ((fun k => nth (n - 1 - k * s) x 0%Q) <$> seq 0 (ceil_div n s)).

Definition Qsum (l : list Q) : Q := foldr Qplus 0%Q l.

(** The mean of the [f] by [f] block at block row [i] and block column
    [j] of a row-major array with rows of [w] elements:
    [x[:h' * f, :w' * f].reshape(h', f, w', f).mean(axis=(1, 3))[i, j]]. *)
Definition block_mean (w f : nat) (x : list Q) (i j : nat) : Q :=
  (Qsum ((fun a => Qsum ((fun b => nth ((i * f + a) * w + (j * f + b)) x 0%Q)
                           <$> seq 0 f))
           <$> seq 0 f)
   / inject_Z (Z.of_nat (f * f)))%Q.

Definition block_average (h' w' w f : nat) (x : list Q) : list Q :=
  i ← seq 0 h'; (fun j => block_mean w f x i j) <$> seq 0 w'.

(** [self.downgrade(factor)].  In the two-dimensional branch a zero
    factor stops at [h // factor]; a negative one gives negative
    quotients, which [reshape] refuses with a [ValueError], as the
    unpacking [h, w = shape] does for a shape that has not two axes. *)
Definition downgrade (self : SkyMap.t) (factor : Z) : MS SkyMap.t :=
  let warning := UserWarning "Downgrading is not yet fully implemented" in
  let rebuild (downgraded_data : ndarray) : MS SkyMap.t :=
    match SkyMap.nside self with
    | Some n =>
        if factor =? 0 then ([warning], inl ZeroDivisionError)
        else ([warning],
              SkyMap__init__ downgraded_data (Some (n / factor))
                (SkyMap.coordinate_system self) (SkyMap.units self)
                (Some (SkyMap.metadata self)))
    | None =>
        ([warning],
         SkyMap__init__ downgraded_data None
           (SkyMap.coordinate_system self) (SkyMap.units self)
           (Some (SkyMap.metadata self)))
    end in
  let x := data (SkyMap.data self) in
  if (ndim (SkyMap.data self) =? 1)%nat
  then match slice_step x factor with
       | None => ([warning], inl (Builtin ValueError))
       | Some y => rebuild {| shape := [length y]; data := y |}
       end
  else match shape (SkyMap.data self) with
       | [h; w] =>
           if factor =? 0 then ([warning], inl ZeroDivisionError)
           else if factor <? 0 then ([warning], inl (Builtin ValueError))
           else
             let f := Z.to_nat factor in
             let new_h := (h / f)%nat in
             let new_w := (w / f)%nat in
             rebuild {| shape := [new_h; new_w];
                        data := block_average new_h new_w w f x |}
       | _ => ([warning], inl (Builtin ValueError))
       end.

(** A boolean array, as [mask_pixels] expects its mask to be. *)
Record boolarray : Type := { bshape : list nat; bdata : list bool }.

(** [self.mask_pixels(mask, fill_value)], with the fill value given.  The
    method returns nothing and writes into [self.data]; here it returns
    the map after the write. *)
Definition mask_pixels (self : SkyMap.t) (mask : boolarray) (fill_value : Q)
    : sky_exn + SkyMap.t :=
  if decide (bshape mask <> shape (SkyMap.data self))
  then inl (SkyMapError "Mask shape must match data shape")
  else inr {| SkyMap.data :=
                {| shape := shape (SkyMap.data self);
                   data := zip_with (fun x keep => if keep : bool then x else fill_value)
                             (data (SkyMap.data self)) (bdata mask) |};
              SkyMap.nside := SkyMap.nside self;
              SkyMap.coordinate_system := SkyMap.coordinate_system self;
              SkyMap.units := SkyMap.units self;
              SkyMap.metadata := SkyMap.metadata self |}.

(** ** [config]: the settings

    From [src/expresso/config.py].  The settings are dictionaries that hold
    dictionaries, and [Config.set] writes into them in place, so the
    dictionaries live in a store and a value that is a dictionary is a
    reference into it.  A [Config] object has one attribute, [_config],
    which none of the functions below rebinds: the object is identified
    with the dictionary that attribute refers to. *)

(** The separator of the keys: the full stop. *)
Definition dot : Ascii.ascii := Ascii.Ascii false true true true false true false false.

(** A Python value: what the predefined settings hold, or a reference to
    a dictionary of the store. *)
Inductive pyval : Type :=
  | PStr (s : string)
  | PFloat (q : Q)
  | PInt (n : Z)
  | PBool (b : bool)
  | PNone
  | PList (l : list string)
  | PDict (l : nat).

(** The store: the dictionaries in the order of their creation. *)
Abbreviation store := (list (gmap string pyval)).

(** [DEFAULT_CONFIG]: object 0 of the store, its five sections after it. *)
Definition DEFAULT_CONFIG : nat := 0%nat.

Definition import_store : store :=
  [ list_to_map
      [("compression", PDict 1); ("skymap", PDict 2); ("io", PDict 3);
       ("utils", PDict 4); ("logging", PDict 5)];
    list_to_map
      [("default_method", PStr "wavelet"); ("default_ratio", PFloat (1 # 10));
       ("allowed_methods", PList ["wavelet"; "pca"; "svd"]);
       ("max_ratio", PFloat (9 # 10)); ("min_ratio", PFloat (1 # 1000))];
    list_to_map
      [("default_nside", PInt 64); ("default_coordinate_system", PStr "galactic");
       ("default_units", PStr "unknown"); ("max_nside", PInt 8192);
       ("valid_coordinate_systems", PList ["galactic"; "equatorial"; "ecliptic"])];
    list_to_map
      [("default_format", PStr "fits");
       ("supported_formats", PList ["fits"; "healpix"; "numpy"; "numpy_compressed"]);
       ("default_overwrite", PBool false); ("max_file_size_mb", PInt 1000)];
    list_to_map
      [("default_angle_units", PStr "radians"); ("default_beam_type", PStr "gaussian");
       ("cmb_temperature", PFloat (27255 # 10000))];
    list_to_map
      [("level", PStr "INFO");
       ("format", PStr "%(asctime)s - %(name)s - %(levelname)s - %(message)s")] ].

(** [s.split(sep)] for a separator of one character. *)
Fixpoint str_split (sep : Ascii.ascii) (s : string) : list string :=
  match s with
  | EmptyString => [""]
  | String c s' =>
      if Ascii.eqb c sep then "" :: str_split sep s'
      else match str_split sep s' with
           | w :: ws => String c w :: ws
           | [] => [String c ""]
           end
  end.

(** [Config()]: the constructor without an argument, [DEFAULT_CONFIG.copy()]:
    a new dictionary with the entries of [DEFAULT_CONFIG], the sections
    themselves not copied. *)
Definition Config__init__ (h : store) : store * nat :=
  (h ++ [default ∅ (h !! DEFAULT_CONFIG)], length h).

(** The loop of [Config.get]: [value = value[k]] for each key; [None]
    stands for the [KeyError] or [TypeError] the method catches. *)
Fixpoint getitem_path (h : store) (value : pyval) (keys : list string) : option pyval :=
  match keys with
  | [] => Some value
  | k :: keys' =>
      match value with
      | PDict l => d ← h !! l; v ← d !! k; getitem_path h v keys'
      | _ => None
      end
  end.

(** [self.get(key, default)]. *)
Definition Config_get (h : store) (self : nat) (key : string) (dflt : pyval) : pyval :=
  default dflt (getitem_path h (PDict self) (str_split dot key)).

(** The loop of [Config.set] over [keys[:-1]]: a missing key gets a new
    empty dictionary; [k not in config], [config[k] = {}] and
    [config = config[k]] end in [TypeError] on whatever is not a dictionary. *)
Fixpoint set_loop (h : store) (config : pyval) (keys : list string)
    : store * (exn + pyval) :=
  match keys with
  | [] => (h, inr config)
  | k :: keys' =>
      match config with
      | PDict l =>
          match h !! l with
          | Some d =>
              match d !! k with
              | Some v => set_loop h v keys'
              | None =>
                  let l' := length h in
                  set_loop (<[l := <[k := PDict l']> d]> (h ++ [∅])) (PDict l') keys'
              end
          | None => (h, inl TypeError)
          end
      | _ => (h, inl TypeError)
      end
  end.

(** [self.set(key, value)]. *)
Definition Config_set (h : store) (self : nat) (key : string) (value : pyval)
    : store * (exn + unit) :=
  let keys := str_split dot key in
  let (h1, r) := set_loop h (PDict self) (removelast keys) in
  match r with
  | inl e => (h1, inl e)
  | inr (PDict l) =>
      match h1 !! l with
      | Some d => (<[l := <[List.last keys "" := value]> d]> h1, inr tt)
      | None => (h1, inl TypeError)
      end
  | inr _ => (h1, inl TypeError)
  end.

(** The module: the store and the global [_global_config]. *)
Module World.
Record t : Type := { objects : store; _global_config : nat }.
End World.

(** The state after the module is imported, when no user configuration
    file is found: [_global_config = Config()]. *)
Definition import_config : World.t :=
  let (h, c) := Config__init__ import_store in
  {| World.objects := h; World._global_config := c |}.

Definition get_config_value (w : World.t) (key : string) (dflt : pyval) : pyval :=
  Config_get (World.objects w) (World._global_config w) key dflt.

Definition set_config_value (w : World.t) (key : string) (value : pyval)
    : World.t * (exn + unit) :=
  let (h, r) := Config_set (World.objects w) (World._global_config w) key value in
  ({| World.objects := h; World._global_config := World._global_config w |}, r).

Definition reset_config (w : World.t) : World.t :=
  let (h, c) := Config__init__ (World.objects w) in
  {| World.objects := h; World._global_config := c |}.

(** * Part II: vocabulary of the statements *)

(** The method names [compress_skymap] dispatches on, and those among them
    that only announce themselves and delegate. *)
Definition known_method (m : string) : Prop :=
  m = "wavelet" \/ m = "pca" \/ m = "svd".

Definition placeholder (m : string) : Prop := m = "pca" \/ m = "svd".

(** The warning a placeholder issues before it delegates. *)
Definition placeholder_warning (m : string) : list event :=
  if String.eqb m "pca"
  then [UserWarning "PCA compression is not yet fully implemented"]
  else if String.eqb m "svd"
  then [UserWarning "SVD compression is not yet fully implemented"]
  else [].

(** The exceptions numpy raises in [_decompress_wavelet]. *)
Definition numpy_error (e : exn) : Prop :=
  e = TypeError \/ e = ValueError \/ e = IndexError.

(** A rational that is a binary64 value: rounding does not move it. *)
Definition float64 (x : Q) : Prop := (round64 x == x)%Q.

(** The count [_compress_wavelet] computes, the positions it keeps in the
    order the envelope lists them, and the envelope it returns. *)
Definition n_keep (a : ndarray) (r : Q) : Z :=
  Z.max 1 (py_int (fmul (float_of_int (Z.of_nat (length (data a)))) r)).

Definition kept (a : ndarray) (r : Q) : list nat :=
  drop (length (data a) - Z.to_nat (n_keep a r)) (aquicksort (Qabs <$> data a)).

Definition envelope_of (a : ndarray) (r : Q) : Env.t :=
  {| Env.method := Some "wavelet";
     Env.shape := shape a;
     Env.indices := Z.of_nat <$> kept a r;
     Env.values := (fun j => nth j (data a) 0%Q) <$> kept a r;
     Env.compression_ratio := r;
     Env.original_size := nbytes (data a);
     Env.compressed_size := nbytes (kept a r) + nbytes (kept a r) |}.

(** [A[i]] and its magnitude, for an index as an envelope stores it. *)
Definition sample (a : ndarray) (i : Z) : Q := key (data a) (Z.to_nat i).
Definition magnitude (a : ndarray) (i : Z) : Q := Qabs (sample a i).

(** The order the insertion pass establishes: by key, and among equal keys
    by position in the input. *)
Definition sorts_before (v : list Q) (i j : nat) : Prop :=
  (key v i < key v j)%Q \/ ((key v i == key v j)%Q /\ (i < j)%nat).

(** The selection rule in the words of the specification: [i] ranks before
    [j] when its magnitude is larger, or equal with [i] the smaller index;
    the rule is followed when every retained index ranks before every
    dropped one. *)
Definition ranks_before (a : ndarray) (i j : Z) : Prop :=
  (magnitude a j < magnitude a i)%Q \/
  ((magnitude a i == magnitude a j)%Q /\ i < j).

Definition selects_top_ranked (a : ndarray) (e : Env.t) : Prop :=
  forall i j, i ∈ Env.indices e -> 0 <= j < Z.of_nat (length (data a)) ->
    j ∉ Env.indices e -> ranks_before a i j.

(** The envelope invariants in the words of the specification. *)
Definition canonical (e : Env.t) : Prop :=
  StronglySorted Z.lt (Env.indices e) /\
  length (Env.indices e) = length (Env.values e) /\
  Forall (fun i => 0 <= i < Z.of_nat (product (Env.shape e))) (Env.indices e).

(** ** Inputs the statements are tried on *)

Definition a5 : ndarray := {| shape := [5%nat]; data := [5; -1; 3; 0; 2]%Q |}.
Definition a_tie : ndarray := {| shape := [2%nat]; data := [1; 1]%Q |}.
Definition a_single : ndarray := {| shape := [1%nat]; data := [7%Q] |}.
Definition a_empty : ndarray := {| shape := [0%nat]; data := [] |}.
Definition a_scalar : ndarray := {| shape := []; data := [7%Q] |}.
Definition a_grid : ndarray :=
  {| shape := [2%nat; 3%nat]; data := [1; -8; 2; 0; 4; -3]%Q |}.
Definition a1000 : ndarray :=
  {| shape := [1000%nat]; data := (fun k => inject_Z k) <$> seqZ 0 1000 |}.
Definition a10 : ndarray :=
  {| shape := [10%nat]; data := (fun k => inject_Z k) <$> seqZ 0 10 |}.
Definition a100 : ndarray :=
  {| shape := [100%nat]; data := (fun k => inject_Z k) <$> seqZ 0 100 |}.

Definition envelope_index_out_of_range : Env.t :=
  {| Env.method := Some "wavelet"; Env.shape := [3%nat];
     Env.indices := [5]; Env.values := [1%Q];
     Env.compression_ratio := 1#2;
     Env.original_size := 24; Env.compressed_size := 16 |}.

Definition envelope_length_mismatch : Env.t :=
  {| Env.method := Some "wavelet"; Env.shape := [3%nat];
     Env.indices := [0; 1]; Env.values := [1; 2; 3]%Q;
     Env.compression_ratio := 1#2;
     Env.original_size := 24; Env.compressed_size := 40 |}.

Definition envelope_single_value : Env.t :=
  {| Env.method := Some "wavelet"; Env.shape := [3%nat];
     Env.indices := [0; 1]; Env.values := [9%Q];
     Env.compression_ratio := 1#2;
     Env.original_size := 24; Env.compressed_size := 24 |}.

(** ** Vocabulary of the further properties *)

(** The two demands numpy makes of an indexed assignment into a buffer of
    [product(shape)] elements: the values can be broadcast to the indices,
    and every index lies in [[-n, n)]. *)
Definition broadcastable (d : Env.t) : Prop :=
  length (Env.values d) = length (Env.indices d) \/ length (Env.values d) = 1%nat.

Definition in_bounds (d : Env.t) : Prop :=
  Forall (fun i => - Z.of_nat (product (Env.shape d)) <= i
                   < Z.of_nat (product (Env.shape d)))
    (Env.indices d).

(** The same dictionary under another method tag. *)
Definition retagged (m : option string) (d : Env.t) : Env.t :=
  {| Env.method := m;
     Env.shape := Env.shape d;
     Env.indices := Env.indices d;
     Env.values := Env.values d;
     Env.compression_ratio := Env.compression_ratio d;
     Env.original_size := Env.original_size d;
     Env.compressed_size := Env.compressed_size d |}.

(** The (index, value) pairs of an envelope that land on position [j] of a
    buffer of [n] elements, in the order they are written. *)
Definition writes_to (n : nat) (j : nat) (d : Env.t) : list (Z * Q) :=
  filter (fun iv => normalize_index n (fst iv) = Some j)
    (zip (Env.indices d) (Env.values d)).

(** Two arrays whose samples have the same magnitudes, position by
    position; and the array with the sign of every sample changed, which
    is one. *)
Definition same_magnitudes (a a' : ndarray) : Prop :=
  Forall2 (fun x y => (Qabs x == Qabs y)%Q) (data a) (data a').

Definition negated (a : ndarray) : ndarray :=
  {| shape := shape a; data := Qopp <$> data a |}.

(** [np.mean(x)] and [(x - y)**2], as the usage example combines them to
    measure the reconstruction error. *)
Definition np_mean (x : list Q) : Q :=
  (foldr Qplus 0 x / inject_Z (Z.of_nat (length x)))%Q.

Definition squared_difference (x y : list Q) : list Q :=
  zip_with (fun u v => (u - v) * (u - v))%Q x y.

(** Powers of two, and the number of them that do not exceed a bound. *)
Definition pow2 (k : nat) : Z := 2 ^ Z.of_nat k.

Definition power_of_two (n : Z) : Prop := exists k : nat, n = pow2 k.

Definition nside_count (max_nside : Z) : nat :=
  if max_nside <? 1 then 0%nat else S (Z.to_nat (Z.log2 max_nside)).

(** An envelope that names one position twice and one from the end. *)
Definition envelope_repeated_index : Env.t :=
  {| Env.method := Some "wavelet"; Env.shape := [3%nat];
     Env.indices := [0; -1; 0]; Env.values := [1; 2; 3]%Q;
     Env.compression_ratio := 1#2;
     Env.original_size := 24; Env.compressed_size := 48 |}.

Global Instance known_method_dec m : Decision (known_method m).
Proof. unfold known_method. apply _. Defined.

Global Instance broadcastable_dec d : Decision (broadcastable d).
Proof. unfold broadcastable. apply _. Defined.

Global Instance in_bounds_dec d : Decision (in_bounds d).
Proof. unfold in_bounds. apply _. Defined.

(** ** Vocabulary of the map wrapper *)

(** What the constructor demands of a map. *)
Definition valid_map (s : SkyMap.t) : Prop :=
  (ndim (SkyMap.data s) = 1%nat \/ ndim (SkyMap.data s) = 2%nat) /\
  match SkyMap.nside s with Some n => 0 < n | None => True end.

(** The warning of [downgrade]. *)
Definition downgrade_warning : event :=
  UserWarning "Downgrading is not yet fully implemented".

(** A sample of the map, by its position in row-major order. *)
Definition pixel (s : SkyMap.t) (k : nat) : Q := nth k (data (SkyMap.data s)) 0%Q.

(** The factor does not exceed the resolution parameter, if there is one. *)
Definition nside_allows (s : SkyMap.t) (factor : Z) : Prop :=
  match SkyMap.nside s with Some n => factor <= n | None => True end.

(** The pixel count of a HEALPix map: 12 nside^2. *)
Definition healpix_count (s : SkyMap.t) : Prop :=
  match SkyMap.nside s with
  | Some n => Z.of_nat (npix s) = 12 * n * n
  | None => False
  end.

(** Maps the statements are tried on: 48 pixels in a row at resolution
    2, and a grid of two rows and four columns. *)
Definition map_line : SkyMap.t :=
  {| SkyMap.data :=
       {| shape := [48%nat];
          data := (fun k => inject_Z (Z.of_nat k)) <$> seq 0 48 |};
     SkyMap.nside := Some 2;
     SkyMap.coordinate_system := "galactic";
     SkyMap.units := "K";
     SkyMap.metadata := [] |}.

(** The map with other samples in the same shape. *)
Definition with_samples (s : SkyMap.t) (x : list Q) : SkyMap.t :=
  {| SkyMap.data := {| shape := shape (SkyMap.data s); data := x |};
     SkyMap.nside := SkyMap.nside s;
     SkyMap.coordinate_system := SkyMap.coordinate_system s;
     SkyMap.units := SkyMap.units s;
     SkyMap.metadata := SkyMap.metadata s |}.

(** Three rows of five samples. *)
Definition map_odd : SkyMap.t :=
  {| SkyMap.data :=
       {| shape := [3%nat; 5%nat];
          data := [1; 2; 3; 4; 9; 5; 6; 7; 8; 9; 9; 9; 9; 9; 9]%Q |};
     SkyMap.nside := Some 4;
     SkyMap.coordinate_system := "galactic";
     SkyMap.units := "K";
     SkyMap.metadata := [] |}.

Definition map_grid : SkyMap.t :=
  {| SkyMap.data := {| shape := [2%nat; 4%nat]; data := [1; 2; 3; 4; 5; 6; 7; 8]%Q |};
     SkyMap.nside := None;
     SkyMap.coordinate_system := "equatorial";
     SkyMap.units := "unknown";
     SkyMap.metadata := [("survey", "test")] |}.

(** A mask with one entry per sample of the map, and the mask that keeps
    what two masks both keep. *)
Definition mask_fits (mask : boolarray) (s : SkyMap.t) : Prop :=
  bshape mask = shape (SkyMap.data s) /\
  length (bdata mask) = length (data (SkyMap.data s)).

Definition mask_and (m1 m2 : boolarray) : boolarray :=
  {| bshape := bshape m1; bdata := zip_with andb (bdata m1) (bdata m2) |}.

Definition mask_checker : boolarray :=
  {| bshape := [2%nat; 4%nat];
     bdata := [true; false; true; false; false; true; false; true] |}.

Definition mask_left : boolarray :=
  {| bshape := [2%nat; 4%nat];
     bdata := [true; true; false; false; true; true; false; false] |}.

(** ** Vocabulary of the settings *)

(** A value that is a dictionary. *)
Definition is_dict (v : pyval) : Prop := exists l, v = PDict l.

(** The global configuration and [DEFAULT_CONFIG] hold the same dictionary
    [l] under [section]. *)
Definition shares_section (w : World.t) (section : string) (l : nat) : Prop :=
  l <> DEFAULT_CONFIG /\ l <> World._global_config w /\
  (exists d, World.objects w !! l = Some d) /\
  getitem_path (World.objects w) (PDict DEFAULT_CONFIG) [section] = Some (PDict l) /\
  getitem_path (World.objects w) (PDict (World._global_config w)) [section]
    = Some (PDict l).


(** Every dictionary of [h] is in [h'], with its entries. *)
Definition store_incl (h h' : store) : Prop :=
  forall l d, h !! l = Some d -> exists d', h' !! l = Some d' /\ d ⊆ d'.

(** * Part III: verification *)

(** ** Comparisons on rationals *)

Lemma Qlt_bool_true x y : Qlt_bool x y = true <-> (x < y)%Q.
Proof.
  unfold Qlt_bool. rewrite negb_true_iff, <- not_true_iff_false, Qle_bool_iff.
  split; [apply Qnot_le_lt | apply Qlt_not_le].
Qed.

Lemma Qlt_bool_false x y : Qlt_bool x y = false <-> (y <= x)%Q.
Proof. unfold Qlt_bool. by rewrite negb_false_iff, Qle_bool_iff. Qed.

Lemma ratio_ok_true r : ratio_ok r = true <-> (0 < r /\ r < 1)%Q.
Proof. unfold ratio_ok. by rewrite andb_true_iff, !Qlt_bool_true. Qed.

Lemma Qdiv_Z_le_1 n d : 0 < d -> (inject_Z n / inject_Z d <= 1)%Q <-> n <= d.
Proof.
  intros Hd. destruct d as [| p | p]; try lia.
  unfold Qdiv, Qinv, Qmult, Qle, inject_Z. simpl. lia.
Qed.

Lemma Qdiv_Z_nonneg n d : 0 <= n -> 0 < d -> (0 <= inject_Z n / inject_Z d)%Q.
Proof.
  intros Hn Hd. destruct d as [| p | p]; try lia.
  unfold Qdiv, Qinv, Qmult, Qle, inject_Z. simpl. lia.
Qed.

(** ** The monad *)

Lemma outcome_bind {A B} (m : M A) (k : A -> M B) x :
  outcome m = inr x -> outcome (bind m k) = outcome (k x).
Proof.
  destruct m as [log [e | y]]; simpl; intros [= ->].
  unfold bind, outcome. by destruct (k x).
Qed.

Lemma outcome_bind_inl {A B} (m : M A) (k : A -> M B) e :
  outcome (bind m k) = inl e ->
  outcome m = inl e \/ exists x, outcome m = inr x /\ outcome (k x) = inl e.
Proof.
  unfold outcome, bind. destruct m as [log [e' | x]]; simpl;
    [intros [= ->]; by left |].
  intros H. right. exists x. split; [done |]. by destruct (k x).
Qed.

(** ** The sort *)

Section InsertionPass.
Variable v : list Q.

Lemma sorts_before_key_le i j : sorts_before v i j -> (key v i <= key v j)%Q.
Proof. intros [H | [H _]]; [by apply Qlt_le_weak | rewrite H; apply Qle_refl]. Qed.

Lemma shift_in_perm vi l : shift_in v vi l ≡ₚ vi :: l.
Proof.
  induction l as [| pk rest IH]; simpl; [done |].
  destruct (Qlt_bool _ _); [| done].
  rewrite IH. apply Permutation_swap.
Qed.

(** Inserting an index larger than all those present keeps the part
    sorted: it stops right of every key that is not greater, so behind
    the equal keys that came earlier. *)
Lemma shift_in_sorted vi l :
  Forall (fun x => (x < vi)%nat) l ->
  StronglySorted (flip (sorts_before v)) l ->
  StronglySorted (flip (sorts_before v)) (shift_in v vi l).
Proof.
  induction l as [| pk rest IH]; simpl; intros Hlt Hs.
  - repeat constructor.
  - apply Forall_cons in Hlt as [Hpk Hrest].
    apply StronglySorted_cons in Hs as [Hall Hs].
    destruct (Qlt_bool (key v vi) (key v pk)) eqn:Hcmp.
    + apply Qlt_bool_true in Hcmp.
      apply StronglySorted_cons. split; [| by apply IH].
      rewrite (shift_in_perm vi rest). constructor; [by left | done].
    + apply Qlt_bool_false in Hcmp.
      assert (Hvi : sorts_before v pk vi).
      { destruct (Qle_lt_or_eq _ _ Hcmp) as [H | H]; [by left | by right]. }
      apply StronglySorted_cons. split; [| by apply StronglySorted_cons].
      constructor; [done |].
      rewrite Forall_forall in Hall, Hrest |- *. intros x Hx.
      specialize (Hall x Hx). specialize (Hrest x Hx). unfold flip in *.
      apply sorts_before_key_le in Hall.
      destruct (Qle_lt_or_eq _ _ (Qle_trans _ _ _ Hall Hcmp)) as [H | H];
        [by left | by right].
Qed.

Lemma insertion_pass_S n :
  insertion_pass v (S n) = shift_in v n (insertion_pass v n).
Proof. unfold insertion_pass. by rewrite seq_S, foldl_app. Qed.

Lemma insertion_pass_perm n : insertion_pass v n ≡ₚ seq 0 n.
Proof.
  induction n as [| n IH]; [done |].
  rewrite insertion_pass_S, shift_in_perm, IH, seq_S. simpl.
  by rewrite Permutation_app_comm.
Qed.

Lemma insertion_pass_sorted n :
  StronglySorted (flip (sorts_before v)) (insertion_pass v n).
Proof.
  induction n as [| n IH]; [constructor |].
  rewrite insertion_pass_S. apply shift_in_sorted; [| done].
  rewrite insertion_pass_perm. apply Forall_seq. lia.
Qed.

Lemma aquicksort_perm : aquicksort v ≡ₚ seq 0 (length v).
Proof. unfold aquicksort. by rewrite <- Permutation_rev, insertion_pass_perm. Qed.

Lemma aquicksort_length : length (aquicksort v) = length v.
Proof. by rewrite aquicksort_perm, length_seq. Qed.

Lemma aquicksort_in_range i : i ∈ aquicksort v -> (i < length v)%nat.
Proof. rewrite aquicksort_perm, elem_of_seq. lia. Qed.

Lemma aquicksort_NoDup : NoDup (aquicksort v).
Proof. rewrite aquicksort_perm. apply NoDup_seq. Qed.
End InsertionPass.

Lemma StronglySorted_rev {A} (R : relation A) (l : list A) :
  StronglySorted (flip R) l -> StronglySorted R (rev l).
Proof.
  induction 1 as [| x l Hs IH Hall]; simpl; [constructor |].
  apply StronglySorted_app. split_and!; [| done | repeat constructor].
  intros x1 x2 Hx1 ->%list_elem_of_singleton.
  rewrite Forall_forall in Hall. apply Hall.
  by apply list_elem_of_In, in_rev, list_elem_of_In.
Qed.

Lemma aquicksort_sorted v : StronglySorted (sorts_before v) (aquicksort v).
Proof. apply StronglySorted_rev, insertion_pass_sorted. Qed.

Lemma key_abs v i : key (Qabs <$> v) i = Qabs (key v i).
Proof.
  unfold key. revert i. induction v as [| x v IH]; intros [| i]; simpl; auto.
Qed.

(** ** What [_compress_wavelet] computes *)

Lemma normalize_index_of_nat n j :
  (j < n)%nat -> normalize_index n (Z.of_nat j) = Some j.
Proof.
  intros Hj. unfold normalize_index.
  destruct (Z.leb_spec 0 (Z.of_nat j)); [| lia].
  destruct (Z.ltb_spec (Z.of_nat j) (Z.of_nat n)); [| lia].
  simpl. by rewrite Nat2Z.id.
Qed.

Lemma check_indices_of_nat n (js : list nat) :
  Forall (fun j => (j < n)%nat) js ->
  check_indices n (Z.of_nat <$> js) = ret js.
Proof.
  intros Hjs. unfold check_indices.
  rewrite (mapM_Some_2 _ _ js); [done |].
  apply Forall2_fmap_l, Forall_Forall2_diag.
  eapply Forall_impl; [done |]. apply normalize_index_of_nat.
Qed.

Lemma slice_from_tail {A} (k : Z) (l : list A) :
  0 < k -> slice_from (- k) l = drop (length l - Z.to_nat k) l.
Proof.
  intros Hk. unfold slice_from.
  destruct (Z.ltb_spec (- k) 0); [| lia]. f_equal. lia.
Qed.

Lemma n_keep_pos a r : 0 < n_keep a r.
Proof. unfold n_keep. lia. Qed.

Lemma kept_in_range a r : Forall (fun j => (j < length (data a))%nat) (kept a r).
Proof.
  apply Forall_drop, Forall_forall. intros j Hj%aquicksort_in_range.
  by rewrite length_fmap in Hj.
Qed.

Lemma kept_NoDup a r : NoDup (kept a r).
Proof. eapply sublist_NoDup; [apply aquicksort_NoDup | apply sublist_drop]. Qed.

Lemma kept_empty a r : data a = [] -> kept a r = [].
Proof. intros Ha. unfold kept. rewrite Ha. apply drop_nil. Qed.

Lemma kept_length a r :
  length (kept a r) = Nat.min (Z.to_nat (n_keep a r)) (length (data a)).
Proof.
  unfold kept. rewrite length_drop, aquicksort_length, length_fmap. lia.
Qed.

(** The function never fails; it allocates the flat copy, the magnitudes,
    the sorted indices and the retained values. *)
Lemma _compress_wavelet_eq a r :
  _compress_wavelet a r =
    ([Alloc (length (data a)); Alloc (length (data a)); Alloc (length (data a));
      Alloc (length (kept a r))],
     inr (envelope_of a r)).
Proof.
  unfold _compress_wavelet, flatten, np_abs, np_argsort, getitem. simpl.
  fold (n_keep a r).
  rewrite slice_from_tail by apply n_keep_pos.
  rewrite length_fmap, aquicksort_length, length_fmap, <- fmap_drop.
  fold (kept a r).
  rewrite check_indices_of_nat by apply kept_in_range. simpl.
  unfold envelope_of, nbytes. by rewrite !length_fmap.
Qed.

(** ** Rounding to binary64 *)

(** *** Powers of two *)

Lemma exp2_pos e : (0 < exp2 e)%Q.
Proof. by apply Qpower_0_lt. Qed.

Lemma exp2_add a b : (exp2 (a + b) == exp2 a * exp2 b)%Q.
Proof. by apply Qpower_plus. Qed.

Lemma exp2_le a b : a <= b -> (exp2 a <= exp2 b)%Q.
Proof. intros H. by apply Qpower_le_compat_l. Qed.

Lemma exp2_lt a b : a < b -> (exp2 a < exp2 b)%Q.
Proof. intros H. by apply Qpower_lt_compat_l. Qed.

Lemma exp2_lt_inv a b : (exp2 a < exp2 b)%Q -> a < b.
Proof. intros H. by eapply Qpower_lt_compat_l_inv. Qed.

Lemma exp2_Z n : 0 <= n -> (exp2 n == inject_Z (2 ^ n))%Q.
Proof. intros H. unfold exp2. by rewrite Zpower_Qpower. Qed.

Lemma exp2_sub a b : (exp2 (a - b) == exp2 a / exp2 b)%Q.
Proof. by apply Qpower_minus. Qed.

(** *** Rounding to the nearest integer *)

Lemma round_half_even_cases t :
  let f := Qfloor t in
  (round_half_even t = f /\ (t - inject_Z f <= 1 # 2)%Q) \/
  (round_half_even t = f + 1 /\ (1 # 2 <= t - inject_Z f)%Q).
Proof.
  unfold round_half_even. simpl.
  destruct (Qcompare_spec (t - inject_Z (Qfloor t)) (1 # 2)) as [H | H | H].
  - destruct (Z.even (Qfloor t)); [left | right]; split; try done; rewrite H; lra.
  - left. split; [done | lra].
  - right. split; [done | lra].
Qed.

Lemma round_half_even_error t :
  (t - (1 # 2) <= inject_Z (round_half_even t) <= t + (1 # 2))%Q.
Proof.
  pose proof (Qfloor_le t) as Hlo. pose proof (Qlt_floor t) as Hhi.
  rewrite inject_Z_plus in Hhi. change (inject_Z 1) with 1%Q in Hhi.
  destruct (round_half_even_cases t) as [[-> H] | [-> H]].
  - lra.
  - rewrite inject_Z_plus. change (inject_Z 1) with 1%Q. lra.
Qed.

Lemma round_half_even_Z t n : (t == inject_Z n)%Q -> round_half_even t = n.
Proof.
  intros H. unfold round_half_even.
  rewrite (Qfloor_comp _ _ H), Qfloor_Z.
  destruct (Qcompare_spec (t - inject_Z n) (1 # 2)) as [E | E | E]; [| done |].
  - rewrite H in E. lra.
  - rewrite H in E. lra.
Qed.

Lemma round_half_even_mono s t :
  (s <= t)%Q -> round_half_even s <= round_half_even t.
Proof.
  intros Hst. pose proof (Qfloor_resp_le _ _ Hst) as Hf.
  destruct (Z.eq_dec (Qfloor s) (Qfloor t)) as [E | E].
  - unfold round_half_even. rewrite E.
    destruct (Qcompare_spec (s - inject_Z (Qfloor t)) (1 # 2)) as [Hs | Hs | Hs];
      destruct (Qcompare_spec (t - inject_Z (Qfloor t)) (1 # 2)) as [Ht | Ht | Ht];
      try lia; try (destruct (Z.even (Qfloor t)); lia); lra.
  - assert (Qfloor s + 1 <= Qfloor t) by lia.
    destruct (round_half_even_cases s) as [[-> _] | [-> _]];
      destruct (round_half_even_cases t) as [[-> _] | [-> _]]; lia.
Qed.

Lemma round_half_even_le t n : (t <= inject_Z n)%Q -> round_half_even t <= n.
Proof.
  intros H. rewrite <- (round_half_even_Z (inject_Z n) n) by reflexivity.
  by apply round_half_even_mono.
Qed.

Lemma round_half_even_ge t n : (inject_Z n <= t)%Q -> n <= round_half_even t.
Proof.
  intros H. rewrite <- (round_half_even_Z (inject_Z n) n) at 1 by reflexivity.
  by apply round_half_even_mono.
Qed.

(** *** The binade of a rational *)

Lemma binade_spec x :
  (0 < x)%Q -> (exp2 (binade x) <= x < exp2 (binade x + 1))%Q.
Proof.
  intros Hx. unfold binade.
  rewrite (Qabs_pos x) by lra.
  destruct x as [n d]. cbn [Qnum Qden].
  assert (0 < n) as Hn by (unfold Qlt in Hx; simpl in Hx; lia).
  rewrite (Z.abs_eq n) by lia.
  set (ln := Z.log2 n). set (ld := Z.log2 (Z.pos d)).
  pose proof (Z.log2_spec n Hn) as [Hn1 Hn2]. fold ln in Hn1, Hn2.
  pose proof (Z.log2_spec (Z.pos d) ltac:(lia)) as [Hd1 Hd2]. fold ld in Hd1, Hd2.
  pose proof (Z.log2_nonneg n). pose proof (Z.log2_nonneg (Z.pos d)).
  assert (n # d == inject_Z n / inject_Z (Z.pos d))%Q as Hq by apply Qmake_Qdiv.
  assert (0 < inject_Z (Z.pos d))%Q as HD by (unfold Qlt; simpl; lia).
  assert (0 < inject_Z n)%Q as HN by (unfold Qlt; simpl; lia).
  assert (exp2 ln == inject_Z (2 ^ ln))%Q as HA by (apply exp2_Z; lia).
  assert (exp2 ld == inject_Z (2 ^ ld))%Q as HB by (apply exp2_Z; lia).
  assert (inject_Z (2 ^ ln) <= inject_Z n)%Q as HA1 by by rewrite <- Zle_Qle.
  assert (inject_Z n < 2 * inject_Z (2 ^ ln))%Q as HA2.
  { change 2%Q with (inject_Z 2). rewrite <- inject_Z_mult, <- Zlt_Qlt.
    replace (Z.succ ln) with (1 + ln) in Hn2 by lia.
    rewrite Z.pow_add_r in Hn2 by lia. lia. }
  assert (inject_Z (2 ^ ld) <= inject_Z (Z.pos d))%Q as HB1 by by rewrite <- Zle_Qle.
  assert (inject_Z (Z.pos d) < 2 * inject_Z (2 ^ ld))%Q as HB2.
  { change 2%Q with (inject_Z 2). rewrite <- inject_Z_mult, <- Zlt_Qlt.
    replace (Z.succ ld) with (1 + ld) in Hd2 by lia.
    rewrite Z.pow_add_r in Hd2 by lia. lia. }
  assert (0 < inject_Z (2 ^ ln))%Q as HA0.
  { rewrite <- HA. apply exp2_pos. }
  assert (0 < inject_Z (2 ^ ld))%Q as HB0.
  { rewrite <- HB. apply exp2_pos. }
  assert (exp2 (ln - ld) == inject_Z (2 ^ ln) / inject_Z (2 ^ ld))%Q as He0.
  { by rewrite exp2_sub, HA, HB. }
  assert (exp2 (ln - ld + 1) == 2 * (inject_Z (2 ^ ln) / inject_Z (2 ^ ld)))%Q as He1.
  { rewrite exp2_add, He0. change (exp2 1) with 2%Q. ring. }
  assert (exp2 (ln - ld - 1) == (inject_Z (2 ^ ln) / inject_Z (2 ^ ld)) / 2)%Q as He2.
  { rewrite exp2_sub, He0. change (exp2 1) with 2%Q. reflexivity. }
  set (A := inject_Z (2 ^ ln)) in *. set (B := inject_Z (2 ^ ld)) in *.
  set (N := inject_Z n) in *. set (D := inject_Z (Z.pos d)) in *.
  assert (N / D < 2 * (A / B))%Q as Hup.
  { apply Qlt_shift_div_r; [done |].
    setoid_replace (2 * (A / B) * D)%Q with ((2 * A * D) / B)%Q using relation Qeq by (field; lra).
    apply Qlt_shift_div_l; [done |]. nra. }
  assert (A / B / 2 <= N / D)%Q as Hlow.
  { apply Qle_shift_div_l; [done |].
    setoid_replace (A / B / 2 * D)%Q with ((A * D) / (2 * B))%Q using relation Qeq by (field; lra).
    apply Qle_shift_div_r; [lra |]. nra. }
  destruct (Qle_bool (exp2 (ln - ld)) (n # d)) eqn:Hb.
  - apply Qle_bool_iff in Hb. split; [done |]. rewrite He1, Hq. done.
  - assert (~ (exp2 (ln - ld) <= n # d)%Q) as Hnb.
    { intros Hle%Qle_bool_iff. congruence. }
    apply Qnot_le_lt in Hnb.
    replace (ln - ld - 1 + 1) with (ln - ld) by lia.
    split; [| done]. rewrite He2, Hq. done.
Qed.

Lemma binade_unique x e :
  (0 < x)%Q -> (exp2 e <= x < exp2 (e + 1))%Q -> binade x = e.
Proof.
  intros Hx [Hlo Hhi]. destruct (binade_spec x Hx) as [Blo Bhi].
  assert (binade x < e + 1) by (apply exp2_lt_inv; lra).
  assert (e < binade x + 1) by (apply exp2_lt_inv; lra).
  lia.
Qed.

Lemma binade_mono x y : (0 < x)%Q -> (x <= y)%Q -> binade x <= binade y.
Proof.
  intros Hx Hxy. destruct (binade_spec x Hx) as [Blo _].
  destruct (binade_spec y ltac:(lra)) as [_ Bhi].
  assert (binade x < binade y + 1) by (apply exp2_lt_inv; lra). lia.
Qed.

(** *** The rounding itself *)

Lemma round64_zero x : (x == 0)%Q -> round64 x = 0%Q.
Proof. intros H. unfold round64. by apply Qeq_bool_iff in H as ->. Qed.

Lemma round64_nonzero x :
  ~ (x == 0)%Q ->
  round64 x = (inject_Z (round_half_even (x / exp2 (grid x))) * exp2 (grid x))%Q.
Proof.
  intros H. unfold round64. destruct (Qeq_bool x 0) eqn:E; [| done].
  by apply Qeq_bool_iff in E.
Qed.

Lemma inject_Z_nonneg n : 0 <= n -> (0 <= inject_Z n)%Q.
Proof. intros H. change 0%Q with (inject_Z 0). by rewrite <- Zle_Qle. Qed.

Lemma inject_Z_nonpos n : n <= 0 -> (inject_Z n <= 0)%Q.
Proof. intros H. change 0%Q with (inject_Z 0). by rewrite <- Zle_Qle. Qed.

Lemma Qdiv_exp2_nonneg x q : (0 <= x)%Q -> (0 <= x / exp2 q)%Q.
Proof.
  intros H. apply Qle_shift_div_l; [apply exp2_pos |]. by rewrite Qmult_0_l.
Qed.

Lemma round64_nonneg x : (0 <= x)%Q -> (0 <= round64 x)%Q.
Proof.
  intros Hx. destruct (Qeq_dec x 0) as [E | E].
  { by rewrite round64_zero. }
  rewrite round64_nonzero by done.
  apply Qmult_le_0_compat; [| apply Qlt_le_weak, exp2_pos].
  apply inject_Z_nonneg, round_half_even_ge. by apply Qdiv_exp2_nonneg.
Qed.

Lemma round64_nonpos x : (x <= 0)%Q -> (round64 x <= 0)%Q.
Proof.
  intros Hx. destruct (Qeq_dec x 0) as [E | E].
  { by rewrite round64_zero. }
  rewrite round64_nonzero by done.
  pose proof (exp2_pos (grid x)) as Hp.
  assert (round_half_even (x / exp2 (grid x)) <= 0) as Hm.
  { apply round_half_even_le. apply Qle_shift_div_r; [done |].
    change (inject_Z 0) with 0%Q. by rewrite Qmult_0_l. }
  apply inject_Z_nonpos in Hm. nra.
Qed.

(** A value on the grid of its binade is not moved. *)
Lemma round64_on_grid x m :
  (x == inject_Z m * exp2 (grid x))%Q -> (round64 x == x)%Q.
Proof.
  intros H. destruct (Qeq_dec x 0) as [E | E].
  { by rewrite round64_zero. }
  rewrite round64_nonzero by done.
  pose proof (exp2_pos (grid x)) as Hp.
  rewrite (round_half_even_Z _ m); [by symmetry |].
  rewrite H at 1. field. lra.
Qed.

Lemma round64_error x :
  (0 < x)%Q ->
  (x - exp2 (grid x) * (1 # 2) <= round64 x <= x + exp2 (grid x) * (1 # 2))%Q.
Proof.
  intros Hx. rewrite round64_nonzero by lra.
  pose proof (exp2_pos (grid x)) as Hp.
  pose proof (round_half_even_error (x / exp2 (grid x))) as [Hlo Hhi].
  set (m := inject_Z (round_half_even (x / exp2 (grid x)))) in *.
  assert (x / exp2 (grid x) * exp2 (grid x) == x)%Q as Hx' by (field; lra).
  set (t := (x / exp2 (grid x))%Q) in *. set (g := exp2 (grid x)) in *.
  split.
  - setoid_replace (x - g * (1 # 2))%Q with ((t - (1 # 2)) * g)%Q using relation Qeq
      by (rewrite <- Hx'; ring).
    apply Qmult_le_compat_r; lra.
  - setoid_replace (x + g * (1 # 2))%Q with ((t + (1 # 2)) * g)%Q using relation Qeq
      by (rewrite <- Hx'; ring).
    apply Qmult_le_compat_r; lra.
Qed.

Lemma grid_mono x y : (0 < x)%Q -> (x <= y)%Q -> grid x <= grid y.
Proof. intros Hx Hxy. unfold grid. pose proof (binade_mono x y Hx Hxy). lia. Qed.

Lemma round64_mono x y : (0 <= x)%Q -> (x <= y)%Q -> (round64 x <= round64 y)%Q.
Proof.
  intros Hx Hxy. destruct (Qeq_dec x 0) as [E | E].
  { rewrite (round64_zero x E). apply round64_nonneg. lra. }
  assert (0 < x)%Q as Hx0 by lra. assert (0 < y)%Q as Hy0 by lra.
  rewrite (round64_nonzero x), (round64_nonzero y) by lra.
  pose proof (grid_mono x y Hx0 Hxy) as Hg.
  pose proof (exp2_pos (grid x)) as Hpx. pose proof (exp2_pos (grid y)) as Hpy.
  destruct (Z.eq_dec (grid x) (grid y)) as [Eg | Ng].
  - rewrite Eg.
    assert (round_half_even (x / exp2 (grid y)) <= round_half_even (y / exp2 (grid y))) as Hm.
    { apply round_half_even_mono. apply Qle_shift_div_l; [done |].
      setoid_replace (x / exp2 (grid y) * exp2 (grid y))%Q with x using relation Qeq
        by (field; lra). done. }
    rewrite Zle_Qle in Hm. nra.
  - (* [y] lies in a higher binade: a power of two separates the results *)
    assert (grid x < grid y) as Hlt by lia.
    assert (grid y = binade y - 52) as Hgy by (unfold grid in *; lia).
    set (ey := binade y) in *.
    destruct (binade_spec x Hx0) as [_ Bx]. destruct (binade_spec y Hy0) as [By _].
    fold ey in By.
    assert (binade x + 1 <= ey) as Hb by (unfold grid in *; lia).
    assert (x <= exp2 ey)%Q as Hxe.
    { pose proof (exp2_le _ _ Hb). lra. }
    (* round64 x <= 2^ey *)
    assert (exp2 ey == inject_Z (2 ^ (ey - grid x)) * exp2 (grid x))%Q as Hsplit.
    { rewrite <- exp2_Z by lia. rewrite <- exp2_add. by replace (ey - grid x + grid x) with ey by lia. }
    assert (round_half_even (x / exp2 (grid x)) <= 2 ^ (ey - grid x)) as Hmx.
    { apply round_half_even_le. apply Qle_shift_div_r; [done |]. by rewrite <- Hsplit. }
    (* 2^ey <= round64 y *)
    assert (exp2 ey == inject_Z (2 ^ 52) * exp2 (grid y))%Q as Hsplit'.
    { rewrite <- exp2_Z by lia. rewrite <- exp2_add. by replace (52 + grid y) with ey by lia. }
    assert (2 ^ 52 <= round_half_even (y / exp2 (grid y))) as Hmy.
    { apply round_half_even_ge. apply Qle_shift_div_l; [done |]. by rewrite <- Hsplit'. }
    rewrite Zle_Qle in Hmx, Hmy.
    apply (Qle_trans _ (exp2 ey)).
    + rewrite Hsplit. apply Qmult_le_compat_r; lra.
    + rewrite Hsplit'. apply Qmult_le_compat_r; lra.
Qed.

Lemma binade_Z n : 0 < n -> binade (inject_Z n) = Z.log2 n.
Proof.
  intros Hn. apply binade_unique.
  - change 0%Q with (inject_Z 0). by rewrite <- Zlt_Qlt.
  - pose proof (Z.log2_spec n Hn) as [H1 H2]. pose proof (Z.log2_nonneg n).
    rewrite !exp2_Z by lia. rewrite <- Zle_Qle, <- Zlt_Qlt.
    replace (Z.log2 n + 1) with (Z.succ (Z.log2 n)) by lia. done.
Qed.

(** The integers up to 2^53 are binary64 values. *)
Lemma round64_Z n : 0 <= n <= 2 ^ 53 -> (round64 (inject_Z n) == inject_Z n)%Q.
Proof.
  intros [Hn0 Hn]. destruct (Z.eq_dec n 0) as [-> | Hne]; [done |].
  assert (0 < n) as Hpos by lia.
  pose proof (Z.log2_spec n Hpos) as [H1 H2]. pose proof (Z.log2_nonneg n) as H0.
  assert (Z.log2 n <= 53) as Hlog.
  { pose proof (Z.log2_le_mono n (2 ^ 53) Hn) as Hm.
    by rewrite Z.log2_pow2 in Hm by lia. }
  assert (grid (inject_Z n) = Z.log2 n - 52) as Hg.
  { unfold grid. rewrite binade_Z by done. lia. }
  destruct (Z.le_gt_cases (Z.log2 n) 52) as [Hsmall | Hbig].
  - apply (round64_on_grid _ (n * 2 ^ (52 - Z.log2 n))). rewrite Hg.
    rewrite inject_Z_mult, <- exp2_Z by lia.
    rewrite <- Qmult_assoc, <- exp2_add.
    replace (52 - Z.log2 n + (Z.log2 n - 52)) with 0 by lia.
    change (exp2 0) with 1%Q. ring.
  - assert (Z.log2 n = 53) as E by lia.
    assert (n = 2 ^ 53) as -> by (rewrite E in H1; lia).
    apply (round64_on_grid _ (2 ^ 52)). rewrite Hg, E. reflexivity.
Qed.

Lemma round64_comp x y : (0 <= x)%Q -> (x == y)%Q -> (round64 x == round64 y)%Q.
Proof.
  intros Hx Hxy. apply Qle_antisym; apply round64_mono; lra.
Qed.

Lemma exp2_m53 : (exp2 (-53) == 1 # 2 ^ 53)%Q.
Proof. reflexivity. Qed.

(** A binary64 value below 1 is at most the one before 1. *)
Lemma float64_below_one r :
  float64 r -> (0 < r)%Q -> (r < 1)%Q -> (r <= 1 - exp2 (-53))%Q.
Proof.
  intros Hf Hr0 Hr1. unfold float64 in Hf.
  destruct (Qlt_le_dec r (1 # 2)) as [Hhalf | Hhalf].
  { rewrite exp2_m53. apply Qlt_le_weak, (Qlt_le_trans _ _ _ Hhalf). by vm_compute. }
  assert (binade r = -1) as Hb.
  { apply binade_unique; [done |]. split; [exact Hhalf | exact Hr1]. }
  assert (grid r = -53) as Hg by (unfold grid; rewrite Hb; lia).
  rewrite round64_nonzero, Hg in Hf by lra.
  set (m := round_half_even (r / exp2 (-53))) in *.
  assert (m < 2 ^ 53) as Hm.
  { rewrite Zlt_Qlt. rewrite <- Hf, exp2_m53 in Hr1.
    apply (Qmult_lt_r _ _ (1 # 2 ^ 53)); [by vm_compute |].
    apply (Qlt_le_trans _ _ _ Hr1). by vm_compute. }
  assert (m <= 2 ^ 53 - 1) as Hm' by lia.
  rewrite Zle_Qle in Hm'. rewrite <- Hf at 1. rewrite exp2_m53.
  setoid_replace (1 - (1 # 2 ^ 53))%Q with (inject_Z (2 ^ 53 - 1) * (1 # 2 ^ 53))%Q
    using relation Qeq by (by vm_compute).
  apply Qmult_le_compat_r; [done | by vm_compute].
Qed.

(** ** How many coefficients are retained: [int(len * ratio)] *)

Lemma py_int_nonneg q : (0 <= q)%Q -> py_int q = Qfloor q.
Proof. intros H. unfold py_int. by apply Qle_bool_iff in H as ->. Qed.

Lemma float_of_int_nonneg n : 0 <= n -> (0 <= float_of_int n)%Q.
Proof. intros H. apply round64_nonneg. by apply inject_Z_nonneg. Qed.

Lemma float_of_int_exact n : 0 <= n <= 2 ^ 53 -> (float_of_int n == inject_Z n)%Q.
Proof. apply round64_Z. Qed.

Lemma fmul_nonneg x y : (0 <= x)%Q -> (0 <= y)%Q -> (0 <= fmul x y)%Q.
Proof. intros Hx Hy. apply round64_nonneg. by apply Qmult_le_0_compat. Qed.

Lemma kept_count_mono n r r' :
  0 <= n -> (0 < r)%Q -> (r <= r')%Q ->
  py_int (fmul (float_of_int n) r) <= py_int (fmul (float_of_int n) r').
Proof.
  intros Hn Hr Hrr'. pose proof (float_of_int_nonneg n Hn) as HF.
  rewrite !py_int_nonneg by (apply fmul_nonneg; lra).
  apply Qfloor_resp_le, round64_mono; [apply Qmult_le_0_compat; lra |].
  nra.
Qed.

Lemma kept_count_le n r :
  0 <= n <= 2 ^ 53 -> (0 < r)%Q -> (r < 1)%Q ->
  py_int (fmul (float_of_int n) r) <= n.
Proof.
  intros Hn Hr0 Hr1. pose proof (float_of_int_nonneg n ltac:(lia)) as HF.
  pose proof (float_of_int_exact n Hn) as HE.
  rewrite py_int_nonneg by (apply fmul_nonneg; lra).
  rewrite <- (Qfloor_Z n) at 2. apply Qfloor_resp_le.
  apply (Qle_trans _ (round64 (inject_Z n))).
  - apply round64_mono; [apply Qmult_le_0_compat; lra |].
    rewrite HE. pose proof (inject_Z_nonneg n ltac:(lia)). nra.
  - rewrite (round64_Z n Hn). apply Qle_refl.
Qed.

Lemma kept_count_lt n r :
  2 <= n <= 2 ^ 53 -> float64 r -> (0 < r)%Q -> (r < 1)%Q ->
  py_int (fmul (float_of_int n) r) < n.
Proof.
  intros Hn Hf Hr0 Hr1. pose proof (float_of_int_nonneg n ltac:(lia)) as HF.
  pose proof (float_of_int_exact n ltac:(lia)) as HE.
  pose proof (float64_below_one r Hf Hr0 Hr1) as Hr.
  rewrite exp2_m53 in Hr.
  assert (0 < 1 # 2 ^ 53)%Q as Hc by by vm_compute.
  assert (exp2 (-1074) <= 1 # 2 ^ 53)%Q as Hs.
  { rewrite <- exp2_m53. apply exp2_le. lia. }
  assert ((1 # 2 ^ 52) * (1 # 2) == 1 # 2 ^ 53)%Q as Hq by reflexivity.
  set (c := (1 # 2 ^ 53)%Q) in *.
  assert (2 <= inject_Z n)%Q as Hn2.
  { change 2%Q with (inject_Z 2). rewrite <- Zle_Qle. lia. }
  set (N := inject_Z n) in *. set (F := float_of_int n) in *.
  set (y := (F * r)%Q).
  assert (0 < y)%Q as Hy by (unfold y; nra).
  assert (y <= N - N * c)%Q as Hy1 by (unfold y; nra).
  assert (2 * c <= N * c)%Q as HNc by (apply Qmult_le_compat_r; lra).
  assert (round64 y < N)%Q as Hlt.
  { pose proof (round64_error y Hy) as [_ Herr].
    apply (Qle_lt_trans _ _ _ Herr).
    destruct (binade_spec y Hy) as [Hb _].
    unfold grid. destruct (Z.max_spec (binade y - 52) (-1074)) as [[_ ->] | [_ ->]].
    - lra.
    - assert (exp2 (binade y - 52) * (1 # 2) == exp2 (binade y) * c)%Q as ->.
      { replace (binade y - 52) with (binade y + -52) by lia.
        rewrite exp2_add. change (exp2 (-52)) with (1 # 2 ^ 52)%Q.
        rewrite <- Qmult_assoc. apply Qmult_comp; [reflexivity | exact Hq]. }
      assert (exp2 (binade y) * c <= y * c)%Q by (apply Qmult_le_compat_r; lra).
      assert (y * c < N * c)%Q by (apply Qmult_lt_compat_r; lra).
      lra. }
  unfold fmul. fold y. rewrite py_int_nonneg by (apply round64_nonneg; lra).
  pose proof (Qfloor_le (round64 y)) as Hfl.
  rewrite Zlt_Qlt. fold N. lra.
Qed.

(** The count is the integer part of the exact product, or one more. *)
Lemma kept_count_floor n r :
  0 <= n <= 2 ^ 53 -> (0 < r)%Q -> (r < 1)%Q ->
  Qfloor (inject_Z n * r) <= py_int (fmul (float_of_int n) r).
Proof.
  intros Hn Hr0 Hr1. pose proof (float_of_int_nonneg n ltac:(lia)) as HF.
  pose proof (float_of_int_exact n Hn) as HE.
  pose proof (inject_Z_nonneg n ltac:(lia)) as HN.
  rewrite py_int_nonneg by (apply fmul_nonneg; lra).
  set (k := Qfloor (inject_Z n * r)).
  pose proof (Qfloor_le (inject_Z n * r)) as Hk. fold k in Hk.
  assert (0 <= k) as Hk0.
  { unfold k. rewrite <- (Qfloor_Z 0). apply Qfloor_resp_le.
    change (inject_Z 0) with 0%Q. nra. }
  assert (k <= n) as Hkn.
  { unfold k. rewrite <- (Qfloor_Z n) at 2. apply Qfloor_resp_le. nra. }
  rewrite <- (Qfloor_Z k). apply Qfloor_resp_le.
  apply (Qle_trans _ (round64 (inject_Z k))).
  - rewrite (round64_Z k) by lia. apply Qle_refl.
  - apply round64_mono; [by apply inject_Z_nonneg |]. rewrite HE. exact Hk.
Qed.

Lemma kept_count_ceil n r :
  1 <= n <= 2 ^ 53 -> (0 < r)%Q -> (r < 1)%Q ->
  py_int (fmul (float_of_int n) r) <= Qfloor (inject_Z n * r) + 1.
Proof.
  intros Hn Hr0 Hr1. pose proof (float_of_int_nonneg n ltac:(lia)) as HF.
  pose proof (float_of_int_exact n ltac:(lia)) as HE.
  assert (1 <= inject_Z n)%Q as HN.
  { change 1%Q with (inject_Z 1). rewrite <- Zle_Qle. lia. }
  rewrite py_int_nonneg by (apply fmul_nonneg; lra).
  set (k := Qfloor (inject_Z n * r)).
  pose proof (Qfloor_le (inject_Z n * r)) as Hk. fold k in Hk.
  pose proof (Qlt_floor (inject_Z n * r)) as Hk1. fold k in Hk1.
  assert (0 <= k) as Hk0.
  { unfold k. rewrite <- (Qfloor_Z 0). apply Qfloor_resp_le.
    change (inject_Z 0) with 0%Q. nra. }
  assert (k < n) as Hkn.
  { rewrite Zlt_Qlt. apply (Qle_lt_trans _ _ _ Hk). nra. }
  rewrite <- (Qfloor_Z (k + 1)). apply Qfloor_resp_le.
  apply (Qle_trans _ (round64 (inject_Z (k + 1)))).
  - apply round64_mono; [nra |]. rewrite HE. by apply Qlt_le_weak.
  - rewrite (round64_Z (k + 1)) by lia. apply Qle_refl.
Qed.

Lemma n_keep_le_length a r :
  Z.of_nat (length (data a)) <= 2 ^ 53 -> (0 < r)%Q -> (r < 1)%Q ->
  n_keep a r <= Z.max 1 (Z.of_nat (length (data a))).
Proof.
  intros HN Hr0 Hr1. unfold n_keep.
  pose proof (kept_count_le (Z.of_nat (length (data a))) r ltac:(lia) Hr0 Hr1). lia.
Qed.

Lemma kept_length_valid a r :
  data a <> [] -> Z.of_nat (length (data a)) <= 2 ^ 53 -> (0 < r)%Q -> (r < 1)%Q ->
  Z.of_nat (length (kept a r)) = n_keep a r.
Proof.
  intros Ha HN Hr0 Hr1. rewrite kept_length.
  pose proof (n_keep_le_length a r HN Hr0 Hr1). pose proof (n_keep_pos a r).
  destruct (data a); [done | simpl in *; lia].
Qed.

(** ** The dispatcher *)

Lemma compress_skymap_known a m r :
  (0 < r)%Q -> (r < 1)%Q -> known_method m ->
  compress_skymap (Ndarray a) m r =
    (placeholder_warning m ++ events (_compress_wavelet a r), inr (envelope_of a r)).
Proof.
  intros Hr0 Hr1 Hm. unfold compress_skymap.
  rewrite (proj2 (ratio_ok_true r)) by done. simpl.
  destruct Hm as [-> | [-> | ->]]; simpl;
    unfold _compress_pca, _compress_svd; by rewrite _compress_wavelet_eq.
Qed.

Lemma compress_skymap_outcome a m r :
  (0 < r)%Q -> (r < 1)%Q -> known_method m ->
  outcome (compress_skymap (Ndarray a) m r) = inr (envelope_of a r).
Proof. intros. by rewrite compress_skymap_known. Qed.

Lemma compress_skymap_bad_ratio a m r :
  ~ (0 < r /\ r < 1)%Q -> compress_skymap (Ndarray a) m r = ([], inl ratio_error).
Proof.
  intros Hr. unfold compress_skymap.
  destruct (ratio_ok r) eqn:Hok; [| done]. by apply ratio_ok_true in Hok.
Qed.

Lemma compress_skymap_unknown a m r :
  (0 < r)%Q -> (r < 1)%Q -> ~ known_method m ->
  compress_skymap (Ndarray a) m r = ([], inl (method_error m)).
Proof.
  intros Hr0 Hr1 Hm. unfold compress_skymap.
  rewrite (proj2 (ratio_ok_true r)) by done. simpl.
  destruct (String.eqb_spec m "wavelet") as [-> | _]; [destruct Hm; by left |].
  destruct (String.eqb_spec m "pca") as [-> | _]; [destruct Hm; right; by left |].
  destruct (String.eqb_spec m "svd") as [-> | _]; [destruct Hm; right; by right |].
  done.
Qed.

(** ** Which coefficients are retained *)

(** Whatever is dropped sorts before whatever is retained. *)
Lemma dropped_sorts_before_kept a r i j :
  i ∈ kept a r -> (j < length (data a))%nat -> j ∉ kept a r ->
  sorts_before (Qabs <$> data a) j i.
Proof.
  intros Hi Hj Hnj. unfold kept in *.
  set (order := aquicksort (Qabs <$> data a)) in *.
  set (cut := (length (data a) - Z.to_nat (n_keep a r))%nat) in *.
  pose proof (aquicksort_sorted (Qabs <$> data a)) as Hs. fold order in Hs.
  rewrite <- (take_drop cut order) in Hs.
  eapply StronglySorted_app_1_elem_of; [exact Hs | | exact Hi].
  assert (j ∈ order) as Hin.
  { unfold order. rewrite aquicksort_perm, length_fmap, elem_of_seq. lia. }
  rewrite <- (take_drop cut order), elem_of_app in Hin. by destruct Hin.
Qed.

Lemma kept_sorted a r : StronglySorted (sorts_before (Qabs <$> data a)) (kept a r).
Proof.
  pose proof (aquicksort_sorted (Qabs <$> data a)) as Hs.
  rewrite <- (take_drop (length (data a) - Z.to_nat (n_keep a r))
                (aquicksort (Qabs <$> data a))) in Hs.
  by apply StronglySorted_app_1_r in Hs.
Qed.

Lemma sample_of_nat a (j : nat) : sample a (Z.of_nat j) = nth j (data a) 0%Q.
Proof. unfold sample, key. by rewrite Nat2Z.id. Qed.

Lemma envelope_values a r :
  Env.values (envelope_of a r) = sample a <$> Env.indices (envelope_of a r).
Proof.
  simpl. rewrite <- list_fmap_compose. apply list_fmap_ext.
  intros _ j _. simpl. by rewrite sample_of_nat.
Qed.

Lemma envelope_indices_NoDup a r : NoDup (Env.indices (envelope_of a r)).
Proof. simpl. apply NoDup_fmap_2; [apply _ | apply kept_NoDup]. Qed.

Lemma envelope_indices_in_range a r :
  Forall (fun i => 0 <= i < Z.of_nat (length (data a))) (Env.indices (envelope_of a r)).
Proof.
  simpl. apply Forall_fmap, (Forall_impl _ _ _ (kept_in_range a r)).
  simpl. lia.
Qed.

Lemma envelope_indices_by_magnitude a r :
  StronglySorted (fun i j => (magnitude a i <= magnitude a j)%Q)
    (Env.indices (envelope_of a r)).
Proof.
  simpl. eapply StronglySorted_fmap; [| apply kept_sorted].
  intros i j Hij%sorts_before_key_le. rewrite !key_abs in Hij.
  unfold magnitude, sample. by rewrite !Nat2Z.id.
Qed.

Lemma envelope_dominates a r i j :
  i ∈ Env.indices (envelope_of a r) ->
  0 <= j < Z.of_nat (length (data a)) ->
  j ∉ Env.indices (envelope_of a r) ->
  sorts_before (Qabs <$> data a) (Z.to_nat j) (Z.to_nat i).
Proof.
  simpl. intros (i' & -> & Hi)%list_elem_of_fmap Hj Hnj.
  rewrite Nat2Z.id. apply (dropped_sorts_before_kept a r); [done | lia |].
  intros Hin. apply Hnj, list_elem_of_fmap. exists (Z.to_nat j). split; [lia | done].
Qed.

Lemma envelope_magnitudes a r i j :
  i ∈ Env.indices (envelope_of a r) ->
  0 <= j < Z.of_nat (length (data a)) ->
  j ∉ Env.indices (envelope_of a r) ->
  (magnitude a j <= magnitude a i)%Q.
Proof.
  intros Hi Hj Hnj.
  pose proof (envelope_dominates a r i j Hi Hj Hnj) as H%sorts_before_key_le.
  by rewrite !key_abs in H.
Qed.

(** ** Decompressing *)

Lemma scatter_length x js vs : length (scatter x js vs) = length x.
Proof.
  unfold scatter. revert x. induction (zip js vs) as [| jv l IH]; intros x; simpl.
  - done.
  - by rewrite IH, length_insert.
Qed.

Lemma scatter_cons x j js v vs :
  scatter x (j :: js) (v :: vs) = scatter (<[j := v]> x) js vs.
Proof. done. Qed.

(** Writing [f j] at every [j] of [js]: the slots named hold their value,
    the others are untouched. *)
Lemma scatter_lookup (f : nat -> Q) x js j :
  (j < length x)%nat ->
  scatter x js (f <$> js) !! j = if decide (j ∈ js) then Some (f j) else x !! j.
Proof.
  revert x. induction js as [| j0 js IH]; intros x Hj.
  - by rewrite decide_False by by intros ?%elem_of_nil.
  - rewrite fmap_cons, scatter_cons, IH by by rewrite length_insert.
    destruct (decide (j ∈ js)) as [Hin | Hnin].
    + by rewrite decide_True by by right.
    + destruct (decide (j = j0)) as [-> | Hne].
      * rewrite decide_True by by left. by apply list_lookup_insert_eq.
      * rewrite decide_False by (by intros [? | ?]%elem_of_cons).
        by apply list_lookup_insert_ne.
Qed.

Lemma np_zeros_prod_axes s :
  s <> [] -> np_zeros_prod s = ([Alloc (product s)], inr (replicate (product s) 0%Q)).
Proof. by destruct s. Qed.

Lemma _decompress_wavelet_envelope a r :
  shape a <> [] -> well_formed a ->
  _decompress_wavelet (envelope_of a r) =
    ([Alloc (length (data a))],
     inr {| shape := shape a;
            data := scatter (replicate (length (data a)) 0%Q) (kept a r)
                      ((fun j => nth j (data a) 0%Q) <$> kept a r) |}).
Proof.
  intros Hs Hwf. unfold _decompress_wavelet. simpl.
  rewrite np_zeros_prod_axes by done. rewrite <- Hwf. simpl.
  unfold setitem, broadcast_to. rewrite !length_fmap.
  rewrite decide_True by done. simpl.
  rewrite length_replicate, check_indices_of_nat by apply kept_in_range. simpl.
  unfold reshape.
  by rewrite decide_True by by rewrite scatter_length, length_replicate.
Qed.

Lemma decompress_skymap_envelope a r :
  decompress_skymap (Dict (envelope_of a r)) = _decompress_wavelet (envelope_of a r).
Proof. done. Qed.

(** Every failure of [_decompress_wavelet] is one numpy raised. *)
Lemma _decompress_wavelet_errors d e :
  outcome (_decompress_wavelet d) = inl e -> numpy_error e.
Proof.
  unfold _decompress_wavelet, numpy_error.
  intros [H | (flat & _ & [H | (flat' & _ & H)]%outcome_bind_inl)]%outcome_bind_inl.
  - unfold np_zeros_prod in H. destruct (np_prod _); simpl in H; [done |].
    injection H as <-. by left.
  - unfold setitem in H.
    apply outcome_bind_inl in H as [H | (vs & _ & [H | (js & _ & H)]%outcome_bind_inl)].
    + unfold broadcast_to in H. case_decide; [done |].
      destruct (Env.values d) as [| v [| v' vs]]; simpl in H; try done;
        injection H as <-; right; by left.
    + unfold check_indices in H. destruct (mapM _ _); simpl in H; [done |].
      injection H as <-. right; by right.
    + done.
  - unfold reshape in H. case_decide; [done |]. injection H as <-. right; by left.
Qed.

(** * Part IV: the claims *)

(** ** C1: which coefficients the baseline keeps *)

(** C1, as stated, fails on ties.  The specification has every retained
    index rank before every dropped one, equal magnitudes ranked by
    ascending index.  For [A = [1, 1]] and ratio [1/2] one position is
    kept, and it is position 1: the tail of an ascending sort is taken,
    and the two equal keys are left where they were. *)
Lemma tie_not_broken_by_ascending_index :
  ~ (forall a r, data a <> [] -> (0 < r /\ r < 1)%Q ->
       exists e, outcome (compress_skymap (Ndarray a) "wavelet" r) = inr e /\
                 selects_top_ranked a e).
Proof.
  intros H. destruct (H a_tie (1#2)) as (e & He & Hsel); [done | by split |].
  vm_compute in He. injection He as <-.
  destruct (Hsel 1 0) as [Hlt | [_ Hlt]]; simpl.
  - by apply list_elem_of_singleton.
  - lia.
  - by intros ?%list_elem_of_singleton.
  - vm_compute in Hlt. discriminate.
  - lia.
Qed.

(** C1, amended.  For every non-empty array of at most 2^53 elements and
    every ratio strictly between 0 and 1 the baseline keeps
    [max(1, int(N * r))] pairwise distinct positions of the array, the
    product taken in binary64, each with its original signed value, and no
    dropped element is larger in magnitude than a retained one.  Nothing
    is said of which of several equal magnitudes is retained.  For
    [A = [5, -1, 3, 0, 2]] and the ratio written [0.4] the retained pairs
    are (2, 3) and (0, 5), in that order, and decompressing the envelope
    yields [[5, 0, 3, 0, 0]]. *)
Theorem compress_keeps_largest_magnitudes :
  (forall a r, data a <> [] -> Z.of_nat (length (data a)) <= 2 ^ 53 ->
     (0 < r /\ r < 1)%Q ->
     exists e, outcome (compress_skymap (Ndarray a) "wavelet" r) = inr e /\
       Z.of_nat (length (Env.indices e))
         = Z.max 1 (py_int (fmul (float_of_int (Z.of_nat (length (data a)))) r)) /\
       NoDup (Env.indices e) /\
       Forall (fun i => 0 <= i < Z.of_nat (length (data a))) (Env.indices e) /\
       Env.values e = sample a <$> Env.indices e /\
       forall i j, i ∈ Env.indices e -> 0 <= j < Z.of_nat (length (data a)) ->
         j ∉ Env.indices e -> (magnitude a j <= magnitude a i)%Q)
  /\ (exists e,
        outcome (compress_skymap (Ndarray a5) "wavelet" (round64 (4#10))) = inr e /\
        zip (Env.indices e) (Env.values e) = [(2, 3%Q); (0, 5%Q)] /\
        outcome (decompress_skymap (Dict e))
          = inr {| shape := [5%nat]; data := [5; 0; 3; 0; 0]%Q |}).
Proof.
  split.
  - intros a r Ha HN [Hr0 Hr1]. exists (envelope_of a r).
    split; [by apply compress_skymap_outcome; [| | left] |].
    split; [simpl; by rewrite length_fmap, kept_length_valid |].
    split; [apply envelope_indices_NoDup |].
    split; [apply envelope_indices_in_range |].
    split; [apply envelope_values |].
    apply envelope_magnitudes.
  - eexists. split; [vm_compute; reflexivity |]. split; vm_compute; reflexivity.
Qed.

Lemma compress_keeps_largest_magnitudes_witness :
  exists e, outcome (compress_skymap (Ndarray a_grid) "wavelet" (1#2)) = inr e /\
    Z.of_nat (length (Env.indices e)) = 3 /\
    forall i j, i ∈ Env.indices e -> 0 <= j < 6 -> j ∉ Env.indices e ->
      (magnitude a_grid j <= magnitude a_grid i)%Q.
Proof.
  destruct (proj1 compress_keeps_largest_magnitudes a_grid (1#2))
    as (e & He & Hn & _ & _ & _ & Hmag); [done | simpl; lia | by split |].
  exists e. split; [exact He |]. split; [exact Hn | exact Hmag].
Defined.

(** ** C2: the shape after a round trip *)

(** C2 at an array without axes.  A zero-dimensional array holds one
    element; it is compressed to an envelope of shape [()], and
    decompressing that envelope stops in [np.zeros] with a [TypeError],
    the product of an empty shape being a float. *)
Theorem roundtrip_of_zero_dimensional_array :
  well_formed a_scalar /\
  outcome (compress_skymap (Ndarray a_scalar) "wavelet" (1#2))
    = inr {| Env.method := Some "wavelet";
             Env.shape := [];
             Env.indices := [0];
             Env.values := [7%Q];
             Env.compression_ratio := 1#2;
             Env.original_size := 8;
             Env.compressed_size := 16 |} /\
  outcome (e <- compress_skymap (Ndarray a_scalar) "wavelet" (1#2) ;;
           decompress_skymap (Dict e)) = inl TypeError.
Proof. split_and!; reflexivity. Qed.

(** The round trip of an array with at least one axis, with or without
    elements: for each of the three method names the result has the shape
    of the input. *)
Theorem roundtrip_shape_axes a m r :
  shape a <> [] -> well_formed a -> (0 < r /\ r < 1)%Q -> known_method m ->
  exists b,
    outcome (e <- compress_skymap (Ndarray a) m r ;; decompress_skymap (Dict e)) = inr b
    /\ shape b = shape a.
Proof.
  intros Hs Hwf [Hr0 Hr1] Hm. eexists.
  erewrite outcome_bind by by apply compress_skymap_outcome.
  rewrite decompress_skymap_envelope, _decompress_wavelet_envelope by done.
  split; reflexivity.
Qed.

Lemma roundtrip_shape_axes_witness :
  exists b,
    outcome (e <- compress_skymap (Ndarray a_grid) "pca" (1#2) ;;
             decompress_skymap (Dict e)) = inr b
    /\ shape b = [2%nat; 3%nat].
Proof.
  apply (roundtrip_shape_axes a_grid "pca" (1#2));
    [done | done | by split | by right; left].
Defined.

(** The round trip restores the retained samples and leaves zero in every
    other position. *)
Theorem roundtrip_keeps_retained_samples a m r (j : nat) :
  shape a <> [] -> well_formed a -> (0 < r /\ r < 1)%Q -> known_method m ->
  (j < length (data a))%nat ->
  exists e b,
    outcome (compress_skymap (Ndarray a) m r) = inr e /\
    outcome (decompress_skymap (Dict e)) = inr b /\
    length (data b) = length (data a) /\
    nth j (data b) 0%Q
      = if decide (Z.of_nat j ∈ Env.indices e) then nth j (data a) 0%Q else 0%Q.
Proof.
  intros Hs Hwf [Hr0 Hr1] Hm Hj. do 2 eexists.
  split; [by apply compress_skymap_outcome |].
  rewrite decompress_skymap_envelope, _decompress_wavelet_envelope by done.
  split; [reflexivity |]. simpl.
  split; [by rewrite scatter_length, length_replicate |].
  rewrite nth_lookup, scatter_lookup by by rewrite length_replicate.
  destruct (decide (j ∈ kept a r)) as [Hin | Hnin].
  - rewrite decide_True; [done |]. by apply list_elem_of_fmap_2.
  - rewrite decide_False by by intros ?%(list_elem_of_fmap_inj_2 _).
    by rewrite lookup_replicate_2.
Qed.

Lemma roundtrip_keeps_retained_samples_witness :
  exists e b,
    outcome (compress_skymap (Ndarray a_grid) "svd" (1#2)) = inr e /\
    outcome (decompress_skymap (Dict e)) = inr b /\
    length (data b) = 6%nat /\
    nth 1 (data b) 0%Q
      = if decide (1 ∈ Env.indices e) then nth 1 (data a_grid) 0%Q else 0%Q.
Proof.
  apply (roundtrip_keeps_retained_samples a_grid "svd" (1#2) 1);
    [done | done | by split | by right; right | simpl; lia].
Defined.

(** ** C3: the number of retained pairs *)

(** C3, as stated, fails: the count is the integer part of the product as
    binary64 arithmetic gives it, not of the exact product.  With the
    ratio read as the float the code is handed: ten elements and the float
    written [0.3], which lies below 3/10, give an exact product below 3,
    the product rounds to 3.0, and three pairs are kept, not two.  With
    the ratio read as the decimal that was written: a hundred elements and
    [0.29] give the float 28.999999999999996 and 28 pairs, not 29. *)
Lemma count_is_not_the_floor_of_the_exact_product :
  ~ (forall a m r, data a <> [] -> (0 < r /\ r < 1)%Q -> known_method m ->
       exists e, outcome (compress_skymap (Ndarray a) m r) = inr e /\
         Z.of_nat (length (Env.indices e))
           = Z.max 1 (Qfloor (inject_Z (Z.of_nat (length (data a))) * r)))
  /\
  ~ (forall a m x, data a <> [] -> (0 < x /\ x < 1)%Q -> known_method m ->
       exists e, outcome (compress_skymap (Ndarray a) m (round64 x)) = inr e /\
         Z.of_nat (length (Env.indices e))
           = Z.max 1 (Qfloor (inject_Z (Z.of_nat (length (data a))) * x))).
Proof.
  split.
  - intros H. destruct (H a10 "wavelet" (round64 (3#10))) as (e & He & Hn);
      [done | by vm_compute | by left |].
    vm_compute in He. injection He as <-. vm_compute in Hn. discriminate.
  - intros H. destruct (H a100 "wavelet" (29#100)) as (e & He & Hn);
      [done | by vm_compute | by left |].
    vm_compute in He. injection He as <-. vm_compute in Hn. discriminate.
Qed.

(** C3, amended.  For every non-empty array of [N] elements, [N] at most
    2^53, every ratio strictly between 0 and 1 and each of the three
    method names, the envelope holds exactly [max(1, int(N * r))] indices
    and as many values, the product taken in binary64; that count is at
    least 1 and at most [N], and it is the integer part of the exact
    product or one more.  For [N = 1000] and the ratio written [0.1] it
    is 100. *)
Theorem envelope_holds_n_keep_pairs a m r :
  data a <> [] -> Z.of_nat (length (data a)) <= 2 ^ 53 ->
  (0 < r /\ r < 1)%Q -> known_method m ->
  let N := Z.of_nat (length (data a)) in
  let n := Z.max 1 (py_int (fmul (float_of_int N) r)) in
  exists e, outcome (compress_skymap (Ndarray a) m r) = inr e /\
    Z.of_nat (length (Env.indices e)) = n /\
    Z.of_nat (length (Env.values e)) = n /\
    1 <= n <= N /\
    Z.max 1 (Qfloor (inject_Z N * r)) <= n <= Z.max 1 (Qfloor (inject_Z N * r) + 1) /\
    (N = 1000 -> r = round64 (1#10) -> n = 100).
Proof.
  intros Ha HN [Hr0 Hr1] Hm N n. exists (envelope_of a r).
  split; [by apply compress_skymap_outcome |].
  pose proof (kept_length_valid a r Ha HN Hr0 Hr1) as Hk.
  pose proof (n_keep_le_length a r HN Hr0 Hr1) as Hle.
  assert (1 <= N) as HN1 by (subst N; destruct (data a); [done | simpl; lia]).
  fold N in HN, Hle. change (n_keep a r) with n in Hk, Hle.
  cbn [Env.indices Env.values envelope_of]. rewrite !length_fmap.
  split_and!; try done; try lia.
  - subst n. apply Z.max_le_compat_l, kept_count_floor; (done || lia).
  - pose proof (kept_count_ceil N r ltac:(lia) Hr0 Hr1). subst n. lia.
  - intros EN ->. subst n. rewrite EN. by vm_compute.
Qed.

Lemma envelope_holds_n_keep_pairs_witness :
  exists e, outcome (compress_skymap (Ndarray a1000) "wavelet" (round64 (1#10))) = inr e /\
    length (Env.indices e) = 100%nat /\ length (Env.values e) = 100%nat.
Proof.
  destruct (envelope_holds_n_keep_pairs a1000 "wavelet" (round64 (1#10)))
    as (e & He & Hi & Hv & _ & _ & H100); [done | by vm_compute | by vm_compute | by left |].
  exists e. split; [exact He |].
  rewrite H100 in Hi, Hv by (done || by vm_compute). lia.
Defined.

(** ** C4: the variants without an implementation *)




(** ** C5: the envelope invariants *)

(** C5, as stated, fails on the order of the indices: for
    [A = [5, -1, 3, 0, 2]] and ratio [0.4] the envelope lists [[2, 0]]. *)
Lemma indices_follow_rank_not_position :
  ~ (forall a m r, well_formed a -> (0 < r /\ r < 1)%Q -> known_method m ->
       exists e, outcome (compress_skymap (Ndarray a) m r) = inr e /\ canonical e).
Proof.
  intros H. destruct (H a5 "wavelet" (4#10)) as (e & He & Hs & _);
    [done | by split | by left |].
  vm_compute in He. injection He as <-. simpl in Hs.
  apply StronglySorted_cons in Hs as [Hall _].
  apply Forall_cons in Hall as [Hlt _]. lia.
Qed.

(** C5, amended.  Every envelope [compress_skymap] produces lists pairwise
    distinct indices in ascending order of the magnitude of their samples
    (the order of the sort, not of the positions), holds as many values as
    indices, and every index lies in [[0, product(shape))]. *)
Theorem envelope_invariants a m r :
  well_formed a -> (0 < r /\ r < 1)%Q -> known_method m ->
  exists e, outcome (compress_skymap (Ndarray a) m r) = inr e /\
    NoDup (Env.indices e) /\
    StronglySorted (fun i j => (magnitude a i <= magnitude a j)%Q) (Env.indices e) /\
    length (Env.indices e) = length (Env.values e) /\
    Forall (fun i => 0 <= i < Z.of_nat (product (Env.shape e))) (Env.indices e).
Proof.
  intros Hwf [Hr0 Hr1] Hm. exists (envelope_of a r).
  split; [by apply compress_skymap_outcome |].
  split; [apply envelope_indices_NoDup |].
  split; [apply envelope_indices_by_magnitude |].
  split; [simpl; by rewrite !length_fmap |].
  simpl. rewrite <- Hwf. apply envelope_indices_in_range.
Qed.

Lemma envelope_invariants_witness :
  exists e, outcome (compress_skymap (Ndarray a5) "svd" (4#10)) = inr e /\
    NoDup (Env.indices e) /\
    StronglySorted (fun i j => (magnitude a5 i <= magnitude a5 j)%Q) (Env.indices e) /\
    length (Env.indices e) = length (Env.values e) /\
    Forall (fun i => 0 <= i < Z.of_nat (product (Env.shape e))) (Env.indices e).
Proof.
  apply (envelope_invariants a5 "svd" (4#10)); [done | by split | by right; right].
Defined.

(** ** C6: malformed envelopes *)

(** C6 on the code.  [decompress_skymap] checks nothing but the method
    name: for an envelope tagged with one of the three known names it never
    raises [CompressionError].  With an index beyond the three elements its
    shape announces, it allocates the buffer and numpy raises [IndexError];
    with two indices and three values, it allocates the buffer and numpy
    raises [ValueError]; with two indices and one value, the value is
    broadcast and an array comes back. *)
Theorem decompress_does_not_validate :
  (forall d m msg, Env.method d = Some m -> known_method m ->
     outcome (decompress_skymap (Dict d)) <> inl (CompressionError msg)) /\
  decompress_skymap (Dict envelope_index_out_of_range) = ([Alloc 3], inl IndexError) /\
  decompress_skymap (Dict envelope_length_mismatch) = ([Alloc 3], inl ValueError) /\
  decompress_skymap (Dict envelope_single_value)
    = ([Alloc 3], inr {| shape := [3%nat]; data := [9; 9; 0]%Q |}).
Proof.
  split_and!; try reflexivity.
  intros d m msg Hd Hm H. unfold decompress_skymap in H. rewrite Hd in H.
  assert (outcome (_decompress_wavelet d) = inl (CompressionError msg)) as Hw.
  { destruct Hm as [-> | [-> | ->]]; simpl in H; [done | |];
      apply outcome_bind_inl in H as [H | (_ & _ & H)]; done. }
  apply _decompress_wavelet_errors in Hw as [Hw | [Hw | Hw]]; discriminate.
Qed.

Lemma decompress_does_not_validate_witness :
  outcome (decompress_skymap (Dict envelope_index_out_of_range))
    <> inl (CompressionError "index out of range").
Proof.
  apply (proj1 decompress_does_not_validate envelope_index_out_of_range "wavelet");
    [done | by left].
Defined.

(** ** C7: arrays without elements *)

(** C7, as stated, fails: an array of shape [(0,)] with ratio [1/2] and
    the default method is compressed without any exception. *)
Lemma empty_array_is_compressed :
  ~ (forall a m r, data a = [] ->
       exists msg,
         outcome (compress_skymap (Ndarray a) m r) = inl (CompressionError msg)).
Proof.
  intros H. destruct (H a_empty "wavelet" (1#2)) as [msg Hmsg]; [done |].
  vm_compute in Hmsg. discriminate.
Qed.

(** C7, amended.  For an array without elements [compress_skymap] raises
    [CompressionError] exactly when the ratio is not strictly between 0 and
    1 or the method name is unknown, in both cases before anything is
    allocated; with a valid ratio and a known method name it returns a
    complete envelope with no index, no value and both sizes zero. *)
Theorem compress_empty_array a m r :
  data a = [] ->
  (~ (0 < r /\ r < 1)%Q ->
     compress_skymap (Ndarray a) m r = ([], inl ratio_error)) /\
  ((0 < r /\ r < 1)%Q -> ~ known_method m ->
     compress_skymap (Ndarray a) m r = ([], inl (method_error m))) /\
  ((0 < r /\ r < 1)%Q -> known_method m ->
     outcome (compress_skymap (Ndarray a) m r)
       = inr {| Env.method := Some "wavelet";
                Env.shape := shape a;
                Env.indices := [];
                Env.values := [];
                Env.compression_ratio := r;
                Env.original_size := 0;
                Env.compressed_size := 0 |}).
Proof.
  intros Ha. split_and!.
  - apply compress_skymap_bad_ratio.
  - intros [Hr0 Hr1]. by apply compress_skymap_unknown.
  - intros [Hr0 Hr1] Hm. rewrite compress_skymap_outcome by done.
    unfold envelope_of. by rewrite kept_empty, Ha.
Qed.

Lemma compress_empty_array_witness :
  outcome (compress_skymap (Ndarray a_empty) "pca" (1#2))
    = inr {| Env.method := Some "wavelet";
             Env.shape := [0%nat];
             Env.indices := [];
             Env.values := [];
             Env.compression_ratio := 1#2;
             Env.original_size := 0;
             Env.compressed_size := 0 |}.
Proof.
  apply (compress_empty_array a_empty "pca" (1#2)); [done | by split | by right; left].
Defined.

(** ** C8: invalid arguments *)

(** C8.  The code has one exception class, [CompressionError]; the two
    situations are told apart by the message.  For every array and every
    method name, a ratio that is not strictly between 0 and 1 (0, 1 and
    -0.1 among them) raises the ratio error.  For every array, a method
    name that is not one of the three known ones ("bogus" among them)
    raises [CompressionError], the unknown-method error whenever the ratio
    is valid.  In each case the log is empty: nothing has been allocated
    and the array has not been looked at. *)
Theorem invalid_arguments_rejected :
  (forall a m r, ~ (0 < r /\ r < 1)%Q ->
     compress_skymap (Ndarray a) m r = ([], inl ratio_error)) /\
  (forall a m r, (0 < r /\ r < 1)%Q -> ~ known_method m ->
     compress_skymap (Ndarray a) m r = ([], inl (method_error m))) /\
  (forall a m r, ~ known_method m ->
     exists msg, compress_skymap (Ndarray a) m r = ([], inl (CompressionError msg))) /\
  (forall a m, compress_skymap (Ndarray a) m 0 = ([], inl ratio_error) /\
               compress_skymap (Ndarray a) m 1 = ([], inl ratio_error) /\
               compress_skymap (Ndarray a) m (-1#10) = ([], inl ratio_error)) /\
  (forall a r, (0 < r /\ r < 1)%Q ->
     compress_skymap (Ndarray a) "bogus" r = ([], inl (method_error "bogus"))).
Proof.
  split_and!.
  - apply compress_skymap_bad_ratio.
  - intros a m r [Hr0 Hr1]. by apply compress_skymap_unknown.
  - intros a m r Hm. destruct (ratio_ok r) eqn:Hok.
    + apply ratio_ok_true in Hok as [Hr0 Hr1]. eexists.
      by apply compress_skymap_unknown.
    + eexists. apply compress_skymap_bad_ratio. rewrite <- ratio_ok_true. congruence.
  - intros a m. split_and!; apply compress_skymap_bad_ratio; intros [H0 H1];
      vm_compute in H0, H1; discriminate.
  - intros a r [Hr0 Hr1]. apply compress_skymap_unknown; [done | done |].
    intros [H | [H | H]]; discriminate.
Qed.

Lemma invalid_arguments_rejected_witness :
  compress_skymap (Ndarray a5) "wavelet" (3#2) = ([], inl ratio_error) /\
  compress_skymap (Ndarray a5) "unknown" (1#10) = ([], inl (method_error "unknown")).
Proof.
  destruct invalid_arguments_rejected as (Hratio & Hmethod & _).
  split.
  - apply Hratio. intros [_ H]. vm_compute in H. discriminate.
  - apply Hmethod; [by split |]. intros [H | [H | H]]; discriminate.
Defined.

(** ** C9: the reported compression ratio *)

(** C9 fails on the code: a one-element array compressed with ratio [1/2]
    keeps its one element, as eight bytes of index and eight bytes of
    value against eight bytes of input, and the reported ratio is 2.  The
    compressed size counts sixteen bytes per retained element against
    eight per input element, so the ratio exceeds 1 as soon as more than
    half of the elements are retained. *)
Lemma ratio_exceeds_one :
  ~ (forall a m r, data a <> [] -> (0 < r /\ r < 1)%Q -> known_method m ->
       exists e, outcome (compress_skymap (Ndarray a) m r) = inr e /\
         (0 < Info.original_size_bytes (get_compression_info e) ->
          (0 <= Info.compression_ratio (get_compression_info e) <= 1)%Q)).
Proof.
  intros H. destruct (H a_single "wavelet" (1#2)) as (e & He & Hratio);
    [done | by split | by left |].
  vm_compute in He. injection He as <-.
  destruct Hratio as [_ Hle]; [done |]. vm_compute in Hle. by apply Hle.
Qed.

(** ** C10: the method tag of a placeholder's envelope *)

(** C10.  For every array and every ratio strictly between 0 and 1, the
    requests "pca", "svd" and "wavelet" return one and the same envelope;
    its method field is "wavelet", and [decompress_skymap] takes the
    wavelet path on it.  Nothing in the envelope tells which of the three
    names was asked for. *)
Theorem placeholder_envelope_is_tagged_wavelet a r :
  (0 < r /\ r < 1)%Q ->
  exists e,
    outcome (compress_skymap (Ndarray a) "pca" r) = inr e /\
    outcome (compress_skymap (Ndarray a) "svd" r) = inr e /\
    outcome (compress_skymap (Ndarray a) "wavelet" r) = inr e /\
    Env.method e = Some "wavelet" /\
    decompress_skymap (Dict e) = _decompress_wavelet e.
Proof.
  intros [Hr0 Hr1]. exists (envelope_of a r).
  split_and!; try done; apply compress_skymap_outcome; try done.
  - right; by left.
  - right; by right.
  - by left.
Qed.

Lemma placeholder_envelope_is_tagged_wavelet_witness :
  exists e,
    outcome (compress_skymap (Ndarray a5) "pca" (4#10)) = inr e /\
    outcome (compress_skymap (Ndarray a5) "svd" (4#10)) = inr e /\
    outcome (compress_skymap (Ndarray a5) "wavelet" (4#10)) = inr e /\
    Env.method e = Some "wavelet" /\
    decompress_skymap (Dict e) = _decompress_wavelet e.
Proof. apply (placeholder_envelope_is_tagged_wavelet a5 (4#10)). by split. Defined.

(** * Part V: further properties of the codec *)

(** ** What [decompress_skymap] refuses *)

Lemma normalize_index_Some n i j :
  normalize_index n i = Some j ->
  - Z.of_nat n <= i < Z.of_nat n /\ (j < n)%nat /\
  j = Z.to_nat (if i <? 0 then i + Z.of_nat n else i).
Proof.
  unfold normalize_index.
  destruct (Z.leb_spec 0 i), (Z.ltb_spec i (Z.of_nat n)), (Z.leb_spec (- Z.of_nat n) i),
    (Z.ltb_spec i 0); simpl; intros [= <-]; lia.
Qed.

Lemma normalize_index_is_Some n i :
  is_Some (normalize_index n i) <-> - Z.of_nat n <= i < Z.of_nat n.
Proof.
  split.
  - intros [j Hj]. by apply normalize_index_Some in Hj as [? _].
  - intros Hi. unfold normalize_index.
    destruct (Z.leb_spec 0 i), (Z.ltb_spec i (Z.of_nat n)),
      (Z.leb_spec (- Z.of_nat n) i), (Z.ltb_spec i 0); simpl; eauto; lia.
Qed.

Lemma check_indices_in_bounds n idx :
  Forall (fun i => - Z.of_nat n <= i < Z.of_nat n) idx ->
  exists js, check_indices n idx = ret js /\
    Forall2 (fun i j => normalize_index n i = Some j) idx js.
Proof.
  intros Hall.
  assert (is_Some (mapM (normalize_index n) idx)) as [js Hjs].
  { apply mapM_is_Some. eapply Forall_impl; [exact Hall |].
    intros i Hi. by apply normalize_index_is_Some. }
  exists js. unfold check_indices. rewrite Hjs. split; [done |].
  by apply mapM_Some_1.
Qed.

Lemma check_indices_out_of_bounds n idx :
  ~ Forall (fun i => - Z.of_nat n <= i < Z.of_nat n) idx ->
  check_indices n idx = raise IndexError.
Proof.
  intros Hnot. unfold check_indices.
  destruct (mapM (normalize_index n) idx) as [js |] eqn:Hjs; [| done].
  destruct Hnot. apply mapM_Some_1 in Hjs.
  apply Forall_forall. intros i Hi.
  apply list_elem_of_lookup in Hi as [k Hk].
  destruct (Forall2_lookup_l _ _ _ _ _ Hjs Hk) as (j & _ & Hj).
  apply normalize_index_is_Some. eauto.
Qed.

Lemma broadcast_to_ok n vals :
  length vals = n \/ length vals = 1%nat ->
  exists vs, broadcast_to n vals = ret vs /\ length vs = n.
Proof.
  intros H. unfold broadcast_to. case_decide; [by eauto |].
  destruct H as [H | H]; [done |].
  destruct vals as [| v [| ? ?]]; try done.
  eexists. split; [done |]. apply length_replicate.
Qed.

Lemma broadcast_to_mismatch n vals :
  ~ (length vals = n \/ length vals = 1%nat) ->
  broadcast_to n vals = raise ValueError.
Proof.
  intros H. unfold broadcast_to. case_decide; [destruct H; by left |].
  destruct vals as [| v [| ? ?]]; try done. destruct H. by right.
Qed.

(** How [_decompress_wavelet] ends, case by case. *)
Lemma _decompress_wavelet_no_axes d :
  Env.shape d = [] -> _decompress_wavelet d = ([], inl TypeError).
Proof. intros Hs. unfold _decompress_wavelet. by rewrite Hs. Qed.

Lemma _decompress_wavelet_mismatch d :
  Env.shape d <> [] -> ~ broadcastable d ->
  _decompress_wavelet d = ([Alloc (product (Env.shape d))], inl ValueError).
Proof.
  intros Hs Hb. unfold _decompress_wavelet.
  rewrite np_zeros_prod_axes by done. simpl.
  unfold setitem. by rewrite broadcast_to_mismatch.
Qed.

Lemma _decompress_wavelet_out_of_bounds d :
  Env.shape d <> [] -> broadcastable d -> ~ in_bounds d ->
  _decompress_wavelet d = ([Alloc (product (Env.shape d))], inl IndexError).
Proof.
  intros Hs Hb Hi. unfold _decompress_wavelet.
  rewrite np_zeros_prod_axes by done. simpl.
  unfold setitem. destruct (broadcast_to_ok _ _ Hb) as (vs & -> & _). simpl.
  rewrite length_replicate. by rewrite check_indices_out_of_bounds.
Qed.

Lemma _decompress_wavelet_ok d :
  Env.shape d <> [] -> broadcastable d -> in_bounds d ->
  exists vs js,
    broadcast_to (length (Env.indices d)) (Env.values d) = ret vs /\
    Forall2 (fun i j => normalize_index (product (Env.shape d)) i = Some j)
      (Env.indices d) js /\
    _decompress_wavelet d =
      ([Alloc (product (Env.shape d))],
       inr {| shape := Env.shape d;
              data := scatter (replicate (product (Env.shape d)) 0%Q) js vs |}).
Proof.
  intros Hs Hb Hi. unfold _decompress_wavelet.
  rewrite np_zeros_prod_axes by done. simpl.
  unfold setitem. destruct (broadcast_to_ok _ _ Hb) as (vs & Hvs & _).
  rewrite Hvs. simpl. rewrite length_replicate.
  destruct (check_indices_in_bounds _ _ Hi) as (js & -> & Hjs). simpl.
  exists vs, js. split_and!; try done.
  unfold reshape. by rewrite decide_True by by rewrite scatter_length, length_replicate.
Qed.

Lemma _decompress_wavelet_inr d b :
  outcome (_decompress_wavelet d) = inr b ->
  Env.shape d <> [] /\ broadcastable d /\ in_bounds d.
Proof.
  destruct (decide (Env.shape d = [])) as [Hs | Hs].
  { by rewrite _decompress_wavelet_no_axes. }
  destruct (decide (broadcastable d)) as [Hb | Hb].
  2: { by rewrite _decompress_wavelet_mismatch. }
  destruct (decide (in_bounds d)) as [Hi | Hi]; [done |].
  by rewrite _decompress_wavelet_out_of_bounds.
Qed.


(** [decompress_skymap] raises [CompressionError] in three situations and
    no other: the argument is not a dictionary, the dictionary has no
    method, or the method is none of the three known names.  In each of
    them nothing has been allocated and no warning issued. *)
Theorem decompress_skymap_refusal x msg :
  (outcome (decompress_skymap x) = inl (CompressionError msg) <->
     ((forall d, x <> Dict d) /\ msg = "Compressed data must be a dictionary") \/
     (exists d, x = Dict d /\ Env.method d = None /\
                msg = "Compression method not found in data") \/
     (exists d m, x = Dict d /\ Env.method d = Some m /\ ~ known_method m /\
                  msg = "Unknown compression method: " +:+ m)) /\
  (outcome (decompress_skymap x) = inl (CompressionError msg) ->
     events (decompress_skymap x) = []).
Proof.
  destruct x as [a | d |]; simpl.
  - split; [| done]. split.
    + intros [= <-]. left. by split.
    + intros [[_ ->] | [(d & ? & _) | (d & m & ? & _)]]; done.
  - destruct (Env.method d) as [m |] eqn:Hm.
    + destruct (decide (known_method m)) as [Hk | Hk].
      * assert (outcome (_decompress_wavelet d) <> inl (CompressionError msg)) as Hw.
        { intros Heq. apply _decompress_wavelet_errors in Heq.
          by destruct Heq as [? | [? | ?]]. }
        assert (outcome (if String.eqb m "wavelet" then _decompress_wavelet d
                         else if String.eqb m "pca" then _decompress_pca d
                         else if String.eqb m "svd" then _decompress_svd d
                         else raise (method_error m))
                <> inl (CompressionError msg)) as Hno.
        { destruct Hk as [-> | [-> | ->]]; simpl; [done | |];
            intros [H | (_ & _ & H)]%outcome_bind_inl; done. }
        split; [| done]. split; [done |].
        intros [[Hd _] | [(d' & [= <-] & ? & _) | (d' & m' & [= <-] & Hm' & Hk' & _)]].
        -- by destruct (Hd d).
        -- congruence.
        -- rewrite Hm in Hm'. injection Hm' as <-. done.
      * assert (String.eqb m "wavelet" = false /\ String.eqb m "pca" = false /\
                String.eqb m "svd" = false) as (-> & -> & ->).
        { split_and!; apply String.eqb_neq; intros ->; apply Hk;
            [by left | right; by left | right; by right]. }
        simpl. split; [| done]. split.
        -- intros [= <-]. right; right. by exists d, m.
        -- intros [[Hd _] | [(d' & [= <-] & ? & _) | (d' & m' & [= <-] & Hm' & _ & ->)]].
           ++ by destruct (Hd d).
           ++ congruence.
           ++ rewrite Hm in Hm'. by injection Hm' as <-.
    + simpl. split; [| done]. split.
      * intros [= <-]. right; left. by exists d.
      * intros [[Hd _] | [(d' & [= <-] & _ & ->) | (d' & m' & [= <-] & Hm' & _)]].
        -- by destruct (Hd d).
        -- done.
        -- congruence.
  - split; [| done]. split.
    + intros [= <-]. left. by split.
    + intros [[_ ->] | [(d & ? & _) | (d & m & ? & _)]]; done.
Qed.

(** An envelope tagged "pca" or "svd" is decompressed exactly as the same
    envelope tagged "wavelet" is (the same allocations, the same array or
    the same numpy exception), after one [UserWarning]. *)
Theorem decompress_placeholder_warns_and_delegates d m :
  Env.method d = Some m -> placeholder m ->
  exists text,
    decompress_skymap (Dict d) =
      (UserWarning text
         :: events (decompress_skymap (Dict (retagged (Some "wavelet") d))),
       outcome (decompress_skymap (Dict (retagged (Some "wavelet") d)))).
Proof.
  intros Hm Hp. unfold decompress_skymap. rewrite Hm. simpl.
  change (_decompress_wavelet (retagged (Some "wavelet") d))
    with (_decompress_wavelet d).
  destruct Hp as [-> | ->]; simpl;
    unfold _decompress_pca, _decompress_svd, bind, emit, events, outcome;
    destruct (_decompress_wavelet d) as [log [e | b]]; simpl; by eexists.
Qed.

Lemma decompress_placeholder_warns_and_delegates_witness :
  exists text,
    decompress_skymap (Dict (retagged (Some "svd") envelope_single_value)) =
      (UserWarning text
         :: events (decompress_skymap (Dict envelope_single_value)),
       outcome (decompress_skymap (Dict envelope_single_value))).
Proof.
  apply (decompress_placeholder_warns_and_delegates
           (retagged (Some "svd") envelope_single_value) "svd"); [done | by right].
Defined.

(** ** What the retained pairs do to the buffer *)

Lemma decompress_skymap_inr d b :
  outcome (decompress_skymap (Dict d)) = inr b ->
  outcome (_decompress_wavelet d) = inr b.
Proof.
  unfold decompress_skymap. destruct (Env.method d) as [m |]; [| done].
  destruct (String.eqb m "wavelet"); [done |].
  destruct (String.eqb m "pca").
  { unfold _decompress_pca. by erewrite outcome_bind. }
  destruct (String.eqb m "svd"); [| done].
  unfold _decompress_svd. by erewrite outcome_bind.
Qed.

(** After a sequence of writes a slot holds the value of the last write
    that named it, and what it held before if none did. *)
Lemma foldl_insert_lookup (x : list Q) (l : list (nat * Q)) (j : nat) :
  (j < length x)%nat ->
  foldl (fun acc jv => <[fst jv := snd jv]> acc) x l !! j
    = match last (filter (fun p => fst p = j) l) with
      | Some p => Some (snd p)
      | None => x !! j
      end.
Proof.
  revert x. induction l as [| p l IH]; intros x Hj; [done |].
  simpl. rewrite IH by by rewrite length_insert.
  rewrite filter_cons. destruct (decide (fst p = j)) as [Hp | Hp].
  - destruct (filter _ l) as [| q k] eqn:Hf; simpl.
    + subst j. by apply list_lookup_insert_eq.
    + destruct (last (q :: k)) eqn:E; [done |]. by apply last_None in E.
  - destruct (last (filter _ l)); [done |]. by apply list_lookup_insert_ne.
Qed.

Lemma writes_normalized n (j : nat) (idx : list Z) (js : list nat) (vs : list Q) :
  Forall2 (fun i k => normalize_index n i = Some k) idx js ->
  snd <$> filter (fun p : nat * Q => fst p = j) (zip js vs)
    = snd <$> filter (fun iv : Z * Q => normalize_index n (fst iv) = Some j) (zip idx vs).
Proof.
  intros H. revert vs. induction H as [| i k idx js Hik _ IH]; intros vs; [done |].
  destruct vs as [| v vs]; [done |]. simpl. rewrite !filter_cons. simpl.
  rewrite Hik.
  destruct (decide (k = j)) as [-> | Hne].
  - rewrite decide_True by done. simpl. by rewrite IH.
  - rewrite decide_False by congruence. apply IH.
Qed.

(** On an envelope with as many values as indices, the array
    [decompress_skymap] returns holds at each position the value paired
    with the last index that names the position, a negative index naming
    the position counted from the end, and zero where no index does. *)
Theorem decompress_last_write_wins d b (j : nat) :
  outcome (decompress_skymap (Dict d)) = inr b ->
  length (Env.values d) = length (Env.indices d) ->
  (j < product (Env.shape d))%nat ->
  nth j (data b) 0%Q
    = match last (writes_to (product (Env.shape d)) j d) with
      | Some iv => snd iv
      | None => 0%Q
      end.
Proof.
  intros Hb%decompress_skymap_inr Hlen Hj.
  destruct (_decompress_wavelet_inr d b Hb) as (Hs & Hbc & Hin).
  destruct (_decompress_wavelet_ok d Hs Hbc Hin) as (vs & js & Hvs & Hjs & Heq).
  rewrite Heq in Hb. injection Hb as <-. simpl.
  unfold broadcast_to in Hvs. rewrite decide_True in Hvs by done.
  injection Hvs as <-.
  rewrite nth_lookup. unfold scatter.
  rewrite foldl_insert_lookup by by rewrite length_replicate.
  unfold writes_to.
  pose proof (writes_normalized _ j _ _ (Env.values d) Hjs) as Hw.
  apply (f_equal last) in Hw. rewrite !fmap_last in Hw.
  destruct (last (filter _ (zip js _))) as [p |],
    (last (filter _ (zip (Env.indices d) _))) as [iv |]; simpl in *; try done.
  - by injection Hw as ->.
  - by rewrite lookup_replicate_2.
Qed.

Lemma decompress_last_write_wins_witness :
  outcome (decompress_skymap (Dict envelope_repeated_index))
    = inr {| shape := [3%nat]; data := [3; 0; 2]%Q |} /\
  nth 2 [3; 0; 2]%Q 0%Q = 2%Q.
Proof.
  split; [reflexivity |].
  apply (decompress_last_write_wins envelope_repeated_index
           {| shape := [3%nat]; data := [3; 0; 2]%Q |} 2);
    [reflexivity | reflexivity | simpl; lia].
Defined.

(** ** What [get_compression_info] reports *)

Lemma round64_unit x : (0 <= x <= 1)%Q -> (0 <= round64 x <= 1)%Q.
Proof.
  intros [H0 H1]. split; [by apply round64_nonneg |].
  apply (Qle_trans _ (round64 (inject_Z 1))); [by apply round64_mono |].
  rewrite round64_Z by lia. apply Qle_refl.
Qed.

Lemma round64_percent x : (0 <= x <= 100)%Q -> (0 <= round64 x <= 100)%Q.
Proof.
  intros [H0 H1]. split; [by apply round64_nonneg |].
  apply (Qle_trans _ (round64 (inject_Z 100))); [by apply round64_mono |].
  rewrite round64_Z by lia. apply Qle_refl.
Qed.

Lemma round64_above_one x : (1 <= x)%Q -> (1 <= round64 x)%Q.
Proof.
  intros H. apply (Qle_trans _ (round64 (inject_Z 1))).
  - rewrite round64_Z by lia. apply Qle_refl.
  - apply round64_mono; [done | exact H].
Qed.

(** [get_compression_info] on a dictionary whose sizes are [int]s:
    without a method it reports "unknown"; an original size that is not
    positive gives ratio 0 and 100 percent saved, whatever the compressed
    size; a compressed size between 0 and a positive original size gives
    a ratio in [[0, 1]] and a saving in [[0, 100]]; a compressed size
    above the original size (and below 2^1000, so that nothing overflows)
    gives a ratio that is at least 1 and a saving that is at most 0.  The
    last two bounds can be met: the sizes 2^53 + 1 and 2^53 report the
    ratio 1 and the saving 0, their quotient rounding to 1. *)
Theorem get_compression_info_bounds d :
  let info := get_compression_info d in
  (Env.method d = None -> Info.method info = "unknown") /\
  (Env.original_size d <= 0 ->
     Info.compression_ratio info = 0%Q /\ (Info.space_saved_percent info == 100)%Q) /\
  (0 <= Env.compressed_size d <= Env.original_size d -> 0 < Env.original_size d ->
     (0 <= Info.compression_ratio info <= 1)%Q /\
     (0 <= Info.space_saved_percent info <= 100)%Q) /\
  (0 < Env.original_size d < Env.compressed_size d ->
   Env.compressed_size d < 2 ^ 1000 ->
     (1 <= Info.compression_ratio info)%Q /\ (Info.space_saved_percent info <= 0)%Q) /\
  (Env.original_size d = 2 ^ 53 -> Env.compressed_size d = 2 ^ 53 + 1 ->
     (Info.compression_ratio info == 1)%Q /\ (Info.space_saved_percent info == 0)%Q).
Proof.
  intros info. subst info. unfold get_compression_info.
  cbn [Info.method Info.compression_ratio Info.space_saved_percent].
  split_and!.
  - by intros ->.
  - intros Ho. destruct (Z.ltb_spec 0 (Env.original_size d)); [lia |].
    split; [done | by vm_compute].
  - intros Hc Ho. destruct (Z.ltb_spec 0 (Env.original_size d)); [| lia].
    pose proof (Qdiv_Z_nonneg (Env.compressed_size d) (Env.original_size d)
                  ltac:(lia) Ho) as H0.
    pose proof (proj2 (Qdiv_Z_le_1 (Env.compressed_size d) (Env.original_size d) Ho)
                  ltac:(lia)) as H1.
    unfold int_truediv, fmul, fsub.
    pose proof (round64_unit _ (conj H0 H1)) as [Hr0 Hr1].
    set (ratio := round64 _) in *. split; [done |].
    assert (0 <= 1 - ratio <= 1)%Q as Ht by lra.
    pose proof (round64_unit _ Ht) as [Hu0 Hu1].
    apply round64_percent. lra.
  - intros Hc _. destruct (Z.ltb_spec 0 (Env.original_size d)); [| lia].
    assert (1 <= inject_Z (Env.compressed_size d) / inject_Z (Env.original_size d))%Q
      as H1.
    { apply Qlt_le_weak, Qnot_le_lt. rewrite Qdiv_Z_le_1 by lia. lia. }
    unfold int_truediv, fmul, fsub.
    pose proof (round64_above_one _ H1) as Hr.
    set (ratio := round64 _) in *. split; [done |].
    assert (round64 (1 - ratio) <= 0)%Q as Hu by (apply round64_nonpos; lra).
    apply round64_nonpos. lra.
  - intros -> ->. by vm_compute.
Qed.

Lemma get_compression_info_bounds_witness :
  (0 <= Info.compression_ratio (get_compression_info envelope_index_out_of_range) <= 1)%Q
  /\ (0 <= Info.space_saved_percent (get_compression_info envelope_index_out_of_range)
      <= 100)%Q.
Proof.
  apply (get_compression_info_bounds envelope_index_out_of_range); simpl; lia.
Defined.

(** ** How the retained set depends on the ratio *)

Lemma n_keep_mono a r r' :
  (0 < r)%Q -> (r <= r')%Q -> n_keep a r <= n_keep a r'.
Proof.
  intros Hr Hrr'. unfold n_keep.
  apply Z.max_le_compat_l, kept_count_mono; (done || lia).
Qed.

Lemma n_keep_lt_length a r :
  (2 <= length (data a))%nat -> Z.of_nat (length (data a)) <= 2 ^ 53 ->
  float64 r -> (0 < r)%Q -> (r < 1)%Q ->
  n_keep a r < Z.of_nat (length (data a)).
Proof.
  intros HN Hmax Hf Hr0 Hr1. unfold n_keep.
  pose proof (kept_count_lt (Z.of_nat (length (data a))) r ltac:(lia) Hf Hr0 Hr1).
  lia.
Qed.

Lemma kept_nested a r r' :
  (0 < r)%Q -> (r <= r')%Q -> kept a r `suffix_of` kept a r'.
Proof.
  intros Hr Hrr'. pose proof (n_keep_mono a r r' Hr Hrr') as Hmono.
  pose proof (n_keep_pos a r). unfold kept.
  set (N := length (data a)). set (order := aquicksort _).
  replace (N - Z.to_nat (n_keep a r))%nat
    with ((N - Z.to_nat (n_keep a r')) +
          ((N - Z.to_nat (n_keep a r)) - (N - Z.to_nat (n_keep a r'))))%nat by lia.
  rewrite <- drop_drop. apply suffix_drop.
Qed.

Lemma suffix_fmap {A B} (f : A -> B) (l k : list A) :
  l `suffix_of` k -> (f <$> l) `suffix_of` (f <$> k).
Proof. intros [p ->]. exists (f <$> p). apply fmap_app. Qed.

(** Raising the ratio only adds to what is retained: for [r <= r'] the
    indices and the values retained at [r] are the last ones of those
    retained at [r'], in the same order. *)
Theorem retained_pairs_are_nested a m m' r r' :
  (0 < r /\ r < 1)%Q -> (0 < r' /\ r' < 1)%Q -> (r <= r')%Q ->
  known_method m -> known_method m' ->
  exists e e',
    outcome (compress_skymap (Ndarray a) m r) = inr e /\
    outcome (compress_skymap (Ndarray a) m' r') = inr e' /\
    Env.indices e `suffix_of` Env.indices e' /\
    Env.values e `suffix_of` Env.values e'.
Proof.
  intros [Hr0 Hr1] [Hr0' Hr1'] Hrr' Hm Hm'.
  exists (envelope_of a r), (envelope_of a r').
  split; [by apply compress_skymap_outcome |].
  split; [by apply compress_skymap_outcome |].
  split; simpl; by apply suffix_fmap, kept_nested.
Qed.

Lemma retained_pairs_are_nested_witness :
  exists e e',
    outcome (compress_skymap (Ndarray a_grid) "wavelet" (1#3)) = inr e /\
    outcome (compress_skymap (Ndarray a_grid) "pca" (2#3)) = inr e' /\
    Env.indices e `suffix_of` Env.indices e' /\
    Env.values e `suffix_of` Env.values e'.
Proof.
  apply (retained_pairs_are_nested a_grid "wavelet" "pca" (1#3) (2#3));
    [by split | by split | by vm_compute | by left | by right; left].
Defined.

(** An array of two or more elements never keeps all of them, whatever
    float the ratio is: the envelope holds fewer indices than the array
    has elements, and some position of the array is in no envelope index.
    (The ratio is a binary64 value, so at most [1 - 2^-53], and the length,
    at most 2^53, is converted to a float exactly; the rounded product
    then stays below the length.) *)
Theorem compress_drops_a_sample a m r :
  (2 <= length (data a))%nat -> Z.of_nat (length (data a)) <= 2 ^ 53 ->
  float64 r -> (0 < r /\ r < 1)%Q -> known_method m ->
  exists e,
    outcome (compress_skymap (Ndarray a) m r) = inr e /\
    (length (Env.indices e) < length (data a))%nat /\
    exists j : nat, (j < length (data a))%nat /\ Z.of_nat j ∉ Env.indices e.
Proof.
  intros HN Hmax Hf [Hr0 Hr1] Hm. exists (envelope_of a r).
  split; [by apply compress_skymap_outcome |].
  assert (length (kept a r) < length (data a))%nat as Hlt.
  { rewrite kept_length. pose proof (n_keep_lt_length a r HN Hmax Hf Hr0 Hr1).
    pose proof (n_keep_pos a r). lia. }
  split; [simpl; by rewrite length_fmap |].
  destruct (decide (Forall (fun j => j ∈ kept a r) (seq 0 (length (data a)))))
    as [Hall | Hex].
  - assert (seq 0 (length (data a)) ⊆+ kept a r) as Hsub.
    { apply NoDup_submseteq; [apply NoDup_seq |]. by apply Forall_forall. }
    apply submseteq_length in Hsub. rewrite length_seq in Hsub. lia.
  - apply not_Forall_Exists in Hex; [| apply _].
    apply Exists_exists in Hex as (j & Hj & Hnj).
    exists j. apply elem_of_seq in Hj. split; [lia |].
    simpl. by intros ?%(list_elem_of_fmap_inj_2 _).
Qed.

Lemma compress_drops_a_sample_witness :
  exists e,
    outcome (compress_skymap (Ndarray a_tie) "wavelet" (round64 (9#10))) = inr e /\
    (length (Env.indices e) < 2)%nat /\
    exists j : nat, (j < 2)%nat /\ Z.of_nat j ∉ Env.indices e.
Proof.
  apply (compress_drops_a_sample a_tie "wavelet" (round64 (9#10)));
    [simpl; lia | simpl; lia | by vm_compute | by vm_compute | by left].
Defined.

(** ** How far the reconstruction is from the input *)

Lemma reconstruction_nth a r (j : nat) :
  (j < length (data a))%nat ->
  nth j (scatter (replicate (length (data a)) 0%Q) (kept a r)
           ((fun k => nth k (data a) 0%Q) <$> kept a r)) 0%Q
    = if decide (j ∈ kept a r) then nth j (data a) 0%Q else 0%Q.
Proof.
  intros Hj. rewrite nth_lookup, scatter_lookup by by rewrite length_replicate.
  destruct (decide (j ∈ kept a r)); [done |]. by rewrite lookup_replicate_2.
Qed.





(** An array of one element along one or more axes comes back from the
    round trip unchanged. *)
Theorem roundtrip_single_element a m r :
  shape a <> [] -> well_formed a -> length (data a) = 1%nat ->
  (0 < r /\ r < 1)%Q -> known_method m ->
  outcome (e <- compress_skymap (Ndarray a) m r ;; decompress_skymap (Dict e)) = inr a.
Proof.
  intros Hs Hwf Hone [Hr0 Hr1] Hm.
  erewrite outcome_bind by by apply compress_skymap_outcome.
  rewrite decompress_skymap_envelope, _decompress_wavelet_envelope by done.
  assert (kept a r = [0%nat]) as ->.
  { unfold kept. rewrite Hone. pose proof (n_keep_pos a r).
    replace (1 - Z.to_nat (n_keep a r))%nat with 0%nat by lia.
    destruct (data a) as [| x [| ? ?]]; done. }
  destruct a as [s [| x [| ? ?]]]; done.
Qed.

Lemma roundtrip_single_element_witness :
  outcome (e <- compress_skymap (Ndarray a_single) "svd" (1#10) ;;
           decompress_skymap (Dict e)) = inr a_single.
Proof.
  apply (roundtrip_single_element a_single "svd" (1#10));
    [done | done | done | by split | by right; right].
Defined.

(** ** Changing the signs of the samples *)

(** The sort looks at its keys only through the comparisons it makes. *)
Lemma shift_in_ext v v' vi l :
  (forall pk, pk ∈ l ->
     Qlt_bool (key v vi) (key v pk) = Qlt_bool (key v' vi) (key v' pk)) ->
  shift_in v vi l = shift_in v' vi l.
Proof.
  induction l as [| pk rest IH]; intros Hcmp; [done |]. simpl.
  rewrite <- (Hcmp pk) by by left.
  destruct (Qlt_bool _ _); [| done].
  f_equal. apply IH. intros pk' Hpk'. apply Hcmp. by right.
Qed.

Lemma insertion_pass_ext v v' n :
  (forall i j, (i < n)%nat -> (j < n)%nat ->
     Qlt_bool (key v i) (key v j) = Qlt_bool (key v' i) (key v' j)) ->
  insertion_pass v n = insertion_pass v' n.
Proof.
  induction n as [| n IH]; intros Hcmp; [done |].
  rewrite !insertion_pass_S, IH by (intros; apply Hcmp; lia).
  apply shift_in_ext. intros pk Hpk. apply Hcmp; [lia |].
  rewrite insertion_pass_perm, elem_of_seq in Hpk. lia.
Qed.

Lemma aquicksort_ext v v' :
  length v = length v' ->
  (forall i j, (i < length v)%nat -> (j < length v)%nat ->
     Qlt_bool (key v i) (key v j) = Qlt_bool (key v' i) (key v' j)) ->
  aquicksort v = aquicksort v'.
Proof.
  intros Hlen Hcmp. unfold aquicksort. rewrite <- Hlen. f_equal.
  by apply insertion_pass_ext.
Qed.

Lemma nth_fmap_in_range (f : Q -> Q) (l : list Q) (i : nat) :
  (i < length l)%nat -> nth i (f <$> l) 0%Q = f (nth i l 0%Q).
Proof.
  revert i. induction l as [| x l IH]; intros [| i] Hi; simpl in *; try lia; [done |].
  apply IH. lia.
Qed.

Lemma Qlt_bool_comp x x' y y' :
  (x == x')%Q -> (y == y')%Q -> Qlt_bool x y = Qlt_bool x' y'.
Proof.
  intros Hx Hy. apply eq_true_iff_eq. rewrite !Qlt_bool_true. by rewrite Hx, Hy.
Qed.

Lemma same_magnitudes_key a a' (i : nat) :
  same_magnitudes a a' ->
  (key (Qabs <$> data a) i == key (Qabs <$> data a') i)%Q.
Proof.
  unfold same_magnitudes, key. intros H. revert i.
  induction H as [| x y l l' Hxy _ IH]; intros [| i]; simpl; (done || apply IH).
Qed.

Lemma kept_same_magnitudes a a' r : same_magnitudes a a' -> kept a' r = kept a r.
Proof.
  intros H. pose proof (Forall2_length _ _ _ H) as Hlen.
  unfold kept, n_keep. rewrite <- Hlen. f_equal.
  apply aquicksort_ext; [by rewrite !length_fmap |].
  intros i j _ _. apply Qlt_bool_comp; symmetry; by apply same_magnitudes_key.
Qed.

Lemma same_magnitudes_negated a : same_magnitudes a (negated a).
Proof.
  unfold same_magnitudes, negated. simpl.
  induction (data a) as [| x l IH]; constructor; [| done].
  by rewrite Qabs_opp.
Qed.

(** What is retained depends on the magnitudes only: two arrays whose
    samples have the same magnitudes, position by position, give
    envelopes with the same indices in the same order, each with the
    samples of its own array.  So it is when every sample changes sign:
    the indices stay and the values change sign. *)
Theorem retained_positions_ignore_sign a a' m r :
  same_magnitudes a a' -> (0 < r /\ r < 1)%Q -> known_method m ->
  exists e e',
    outcome (compress_skymap (Ndarray a) m r) = inr e /\
    outcome (compress_skymap (Ndarray a') m r) = inr e' /\
    Env.indices e' = Env.indices e /\
    Env.values e' = sample a' <$> Env.indices e /\
    (a' = negated a -> Env.values e' = Qopp <$> Env.values e).
Proof.
  intros Hs [Hr0 Hr1] Hm. exists (envelope_of a r), (envelope_of a' r).
  split; [by apply compress_skymap_outcome |].
  split; [by apply compress_skymap_outcome |].
  cbn [Env.indices Env.values envelope_of]. rewrite (kept_same_magnitudes a a') by done.
  split; [done |]. split.
  - rewrite <- list_fmap_compose. apply list_fmap_ext.
    intros k j Hk. cbn [compose]. by rewrite sample_of_nat.
  - intros ->. rewrite <- list_fmap_compose. apply list_fmap_ext.
    intros k j Hk. cbn [compose negated data].
    apply nth_fmap_in_range.
    pose proof (kept_in_range a r) as Hr. rewrite Forall_forall in Hr.
    apply Hr. by eapply list_elem_of_lookup_2.
Qed.

Lemma retained_positions_ignore_sign_witness :
  exists e e',
    outcome (compress_skymap (Ndarray a5) "wavelet" (round64 (4#10))) = inr e /\
    outcome (compress_skymap (Ndarray (negated a5)) "wavelet" (round64 (4#10))) = inr e' /\
    Env.indices e' = Env.indices e /\
    Env.values e' = Qopp <$> Env.values e.
Proof.
  destruct (retained_positions_ignore_sign a5 (negated a5) "wavelet" (round64 (4#10)))
    as (e & e' & He & He' & Hi & _ & Hv);
    [apply same_magnitudes_negated | by vm_compute | by left |].
  exists e, e'. split; [exact He |]. split; [exact He' |].
  split; [exact Hi | exact (Hv eq_refl)].
Defined.

(** ** What [compress_skymap] refuses *)

(** [compress_skymap] fails in three situations and no other, each time
    with [CompressionError] and before anything is allocated: the argument
    is not an array; it is one and the ratio is not strictly between 0 and
    1; the ratio is valid and the method is none of the three known names.
    On an array of any shape, with a valid ratio and a known method, it
    returns an envelope. *)
Theorem compress_skymap_refusal x m r e :
  (outcome (compress_skymap x m r) = inl e <->
     ((forall a, x <> Ndarray a) /\ e = CompressionError "Input must be a numpy array") \/
     (exists a, x = Ndarray a /\ ~ (0 < r /\ r < 1)%Q /\ e = ratio_error) \/
     (exists a, x = Ndarray a /\ (0 < r /\ r < 1)%Q /\ ~ known_method m /\
                e = method_error m)) /\
  (outcome (compress_skymap x m r) = inl e -> events (compress_skymap x m r) = []).
Proof.
  destruct x as [a | d |].
  - destruct (ratio_ok r) eqn:Hok.
    + apply ratio_ok_true in Hok as Hr. destruct Hr as [Hr0 Hr1].
      destruct (decide (known_method m)) as [Hk | Hk].
      * rewrite compress_skymap_known by done. simpl. split; [| done].
        split; [done |].
        intros [[Ha _] | [(a' & _ & Hbad & _) | (a' & _ & _ & Hk' & _)]];
          [by destruct (Ha a) | by destruct Hbad | done].
      * rewrite compress_skymap_unknown by done. simpl. split; [| done]. split.
        -- intros [= <-]. right; right. by exists a.
        -- intros [[Ha _] | [(a' & _ & Hbad & _) | (a' & _ & _ & _ & ->)]]; try done.
           ++ by destruct (Ha a).
           ++ by destruct Hbad.
    + assert (~ (0 < r /\ r < 1)%Q) as Hbad.
      { rewrite <- ratio_ok_true. congruence. }
      rewrite compress_skymap_bad_ratio by done. simpl. split; [| done]. split.
      * intros [= <-]. right; left. by exists a.
      * intros [[Ha _] | [(a' & _ & _ & ->) | (a' & _ & Hr & _)]]; try done.
        by destruct (Ha a).
  - simpl. split; [| done]. split.
    + intros [= <-]. left. by split.
    + intros [[_ ->] | [(a & ? & _) | (a & ? & _)]]; done.
  - simpl. split; [| done]. split.
    + intros [= <-]. left. by split.
    + intros [[_ ->] | [(a & ? & _) | (a & ? & _)]]; done.
Qed.

(** ** The reconstruction error and the ratio *)

Lemma sum_zip_with_le (g : Q -> Q -> Q) (x y y' : list Q) :
  length y = length x -> length y' = length x ->
  (forall j, (j < length x)%nat ->
     (g (nth j x 0) (nth j y' 0) <= g (nth j x 0) (nth j y 0))%Q) ->
  (foldr Qplus 0 (zip_with g x y') <= foldr Qplus 0 (zip_with g x y))%Q.
Proof.
  revert y y'. induction x as [| u x IH]; intros y y' Hy Hy' Hle.
  - simpl. apply Qle_refl.
  - destruct y as [| v y], y' as [| v' y']; try done. simpl.
    apply Qplus_le_compat.
    + apply (Hle 0%nat). simpl. lia.
    + apply IH; [simpl in *; lia | simpl in *; lia |].
      intros j Hj. apply (Hle (S j)). simpl. lia.
Qed.

Lemma length_zip_with_same {A B C} (g : A -> B -> C) (x : list A) (y : list B) :
  length y = length x -> length (zip_with g x y) = length x.
Proof. intros H. rewrite length_zip_with. lia. Qed.

(** Raising the ratio never raises the mean squared error of the round
    trip (nor, then, its square root, the RMS error the usage example
    prints): what is retained at the larger ratio includes what is
    retained at the smaller one. *)
Theorem reconstruction_error_is_monotone a m m' r r' :
  shape a <> [] -> well_formed a ->
  (0 < r /\ r < 1)%Q -> (0 < r' /\ r' < 1)%Q -> (r <= r')%Q ->
  known_method m -> known_method m' ->
  exists b b',
    outcome (e <- compress_skymap (Ndarray a) m r ;; decompress_skymap (Dict e)) = inr b /\
    outcome (e <- compress_skymap (Ndarray a) m' r' ;; decompress_skymap (Dict e)) = inr b' /\
    (np_mean (squared_difference (data a) (data b'))
     <= np_mean (squared_difference (data a) (data b)))%Q.
Proof.
  intros Hs Hwf [Hr0 Hr1] [Hr0' Hr1'] Hrr' Hm Hm'. do 2 eexists.
  split.
  { erewrite outcome_bind by by apply compress_skymap_outcome.
    by rewrite decompress_skymap_envelope, _decompress_wavelet_envelope. }
  split.
  { erewrite outcome_bind by by apply compress_skymap_outcome.
    by rewrite decompress_skymap_envelope, _decompress_wavelet_envelope. }
  cbn [data]. unfold np_mean, squared_difference.
  rewrite !length_zip_with_same by by rewrite scatter_length, length_replicate.
  apply Qmult_le_compat_r.
  2: { apply Qinv_le_0_compat. change 0%Q with (inject_Z 0).
       rewrite <- Zle_Qle. lia. }
  apply sum_zip_with_le; try by rewrite scatter_length, length_replicate.
  intros j Hj. rewrite !reconstruction_nth by done.
  destruct (decide (j ∈ kept a r')) as [Hin' | Hnin'].
  - destruct (decide (j ∈ kept a r)); nra.
  - rewrite decide_False; [apply Qle_refl |].
    intros Hin. apply Hnin'.
    destruct (kept_nested a r r' Hr0 Hrr') as [k ->].
    apply elem_of_app. by right.
Qed.

Lemma reconstruction_error_is_monotone_witness :
  exists b b',
    outcome (e <- compress_skymap (Ndarray a_grid) "wavelet" (1#3) ;;
             decompress_skymap (Dict e)) = inr b /\
    outcome (e <- compress_skymap (Ndarray a_grid) "wavelet" (2#3) ;;
             decompress_skymap (Dict e)) = inr b' /\
    (np_mean (squared_difference (data a_grid) (data b'))
     <= np_mean (squared_difference (data a_grid) (data b)))%Q.
Proof.
  apply (reconstruction_error_is_monotone a_grid "wavelet" "wavelet" (1#3) (2#3));
    [done | done | by split | by split | by vm_compute | by left | by left].
Defined.

(** * Part VI: the HEALPix helpers of [utils] *)

Lemma land_even_odd a b : Z.land (2 * a) (2 * b + 1) = 2 * Z.land a b.
Proof.
  apply Z.bits_inj'. intros n Hn.
  destruct (Z.eq_dec n 0) as [-> | Hne].
  - by rewrite Z.land_spec, !Z.testbit_even_0.
  - replace n with (Z.succ (n - 1)) by lia.
    rewrite Z.land_spec, !Z.testbit_even_succ, Z.testbit_odd_succ, Z.land_spec by lia.
    done.
Qed.

Lemma land_odd_even a : Z.land (2 * a + 1) (2 * a) = 2 * a.
Proof.
  apply Z.bits_inj'. intros n Hn.
  destruct (Z.eq_dec n 0) as [-> | Hne].
  - by rewrite Z.land_spec, Z.testbit_odd_0, Z.testbit_even_0.
  - replace n with (Z.succ (n - 1)) by lia.
    rewrite Z.land_spec, Z.testbit_even_succ, Z.testbit_odd_succ by lia.
    apply andb_diag.
Qed.

(** Clearing the lowest set bit of a positive number leaves nothing only
    when the number has a single bit set. *)
Lemma land_pred_power_of_two (p : positive) :
  Z.land (Z.pos p) (Z.pos p - 1) = 0 -> power_of_two (Z.pos p).
Proof.
  induction p as [p IH | p IH |].
  - rewrite Pos2Z.inj_xI. replace (2 * Z.pos p + 1 - 1) with (2 * Z.pos p) by lia.
    rewrite land_odd_even. lia.
  - rewrite Pos2Z.inj_xO.
    replace (2 * Z.pos p - 1) with (2 * (Z.pos p - 1) + 1) by lia.
    rewrite land_even_odd. intros H.
    destruct IH as [k Hk]; [lia |]. exists (S k).
    unfold pow2 in *. rewrite Hk, Nat2Z.inj_succ, Z.pow_succ_r by lia. done.
  - intros _. by exists 0%nat.
Qed.

Lemma pow2_pos k : 0 < pow2 k.
Proof. unfold pow2. apply Z.pow_pos_nonneg; lia. Qed.

Lemma power_of_two_land_pred (k : nat) : Z.land (pow2 k) (pow2 k - 1) = 0.
Proof.
  unfold pow2.
  replace (2 ^ Z.of_nat k - 1) with (Z.ones (Z.of_nat k))
    by (rewrite Z.ones_equiv; lia).
  rewrite Z.land_ones by lia. apply Z.mod_same.
  pose proof (pow2_pos k). unfold pow2 in *. lia.
Qed.

Lemma validate_nside_int n :
  validate_nside (PyInt n) = true <-> power_of_two n.
Proof.
  simpl. destruct (Z.leb_spec n 0) as [Hn | Hn].
  - split; [done |]. intros (k & ->). pose proof (pow2_pos k). lia.
  - rewrite Z.eqb_eq. split.
    + intros H. destruct n as [| p | p]; try lia. by apply land_pred_power_of_two.
    + intros (k & ->). apply power_of_two_land_pred.
Qed.

(** [validate_nside] accepts exactly the integers that are powers of two:
    1, 2, 4, ...; it rejects zero, the negative integers and whatever is
    not an [int]. *)
Theorem validate_nside_power_of_two (x : pyarg) :
  validate_nside x = true <-> exists n, x = PyInt n /\ power_of_two n.
Proof.
  destruct x as [n |].
  - rewrite validate_nside_int. split.
    + intros H. by exists n.
    + by intros (n' & [= <-] & H).
  - split; [done |]. by intros (n & ? & _).
Qed.

Lemma pow2_le_max max_nside k :
  pow2 k <= max_nside <-> (k < nside_count max_nside)%nat.
Proof.
  unfold nside_count. pose proof (pow2_pos k). unfold pow2 in *.
  destruct (Z.ltb_spec max_nside 1) as [Hm | Hm]; [lia |].
  rewrite Z.log2_le_pow2 by lia. pose proof (Z.log2_nonneg max_nside). lia.
Qed.

(** The loop entered with the [k]-th power of two, [d] powers short of
    the bound and with more fuel than that, appends those [d] powers and
    stops. *)
Lemma while_nside_run max_nside d :
  forall k acc fuel,
    (k + d = nside_count max_nside)%nat -> (d < fuel)%nat ->
    while_nside fuel max_nside (pow2 k) acc = Some (acc ++ (pow2 <$> seq k d)).
Proof.
  induction d as [| d IH]; intros k acc [| fuel] Hk Hfuel; try lia; simpl.
  - destruct (Z.leb_spec (pow2 k) max_nside) as [Hle | Hgt].
    + apply pow2_le_max in Hle. lia.
    + by rewrite app_nil_r.
  - destruct (Z.leb_spec (pow2 k) max_nside) as [Hle | Hgt].
    + replace (pow2 k * 2) with (pow2 (S k)).
      2: { unfold pow2. rewrite Nat2Z.inj_succ, Z.pow_succ_r by lia. lia. }
      rewrite IH by lia. by rewrite <- app_assoc.
    + assert (k < nside_count max_nside)%nat as Hlt%pow2_le_max by lia. lia.
Qed.

Lemma pow2_lt k k' : (k < k')%nat -> pow2 k < pow2 k'.
Proof. intros H. unfold pow2. apply Z.pow_lt_mono_r; lia. Qed.

Lemma pow2_sorted k d : StronglySorted Z.lt (pow2 <$> seq k d).
Proof.
  revert k. induction d as [| d IH]; intros k; [constructor |].
  simpl. constructor; [apply IH |].
  apply Forall_fmap, Forall_seq. intros j Hj. simpl. apply pow2_lt. lia.
Qed.

(** The loop of [get_valid_nside_values] ends: with more fuel than the
    number of powers of two up to [max_nside] it returns a list, strictly
    ascending, whose members are exactly the values that [validate_nside]
    accepts and that do not exceed [max_nside] (none when [max_nside] is
    below 1). *)
Theorem get_valid_nside_values_spec max_nside fuel :
  (nside_count max_nside < fuel)%nat ->
  exists l, get_valid_nside_values fuel max_nside = Some l /\
    StronglySorted Z.lt l /\
    forall n, n ∈ l <-> validate_nside (PyInt n) = true /\ n <= max_nside.
Proof.
  intros Hfuel. exists (pow2 <$> seq 0 (nside_count max_nside)).
  split; [| split].
  - unfold get_valid_nside_values. change 1 with (pow2 0).
    by rewrite (while_nside_run max_nside (nside_count max_nside) 0 []).
  - apply pow2_sorted.
  - intros n. rewrite list_elem_of_fmap, validate_nside_int. split.
    + intros (k & -> & Hk%elem_of_seq). split.
      * by exists k.
      * apply pow2_le_max. lia.
    + intros [(k & ->) Hle]. exists k. split; [done |].
      apply elem_of_seq. apply pow2_le_max in Hle. lia.
Qed.

Lemma get_valid_nside_values_spec_witness :
  exists l, get_valid_nside_values 20 8192 = Some l /\
    StronglySorted Z.lt l /\
    forall n, n ∈ l <-> validate_nside (PyInt n) = true /\ n <= 8192.
Proof. apply (get_valid_nside_values_spec 8192 20). vm_compute. lia. Defined.

(** * Part VII: the map wrapper of [skymap] *)

(** ** The constructor *)

Lemma SkyMap__init__ok d ns cs u md :
  (ndim d = 1%nat \/ ndim d = 2%nat) ->
  match ns with Some n => 0 < n | None => True end ->
  SkyMap__init__ d ns cs u md =
    inr {| SkyMap.data := d; SkyMap.nside := ns; SkyMap.coordinate_system := cs;
           SkyMap.units := u; SkyMap.metadata := default [] md |}.
Proof.
  intros Hd Hn. unfold SkyMap__init__.
  assert ((ndim d =? 1)%nat || (ndim d =? 2)%nat = true) as ->.
  { apply orb_true_iff. rewrite !Nat.eqb_eq. done. }
  simpl. destruct ns as [n |]; [| done].
  by destruct (Z.leb_spec n 0); [lia |].
Qed.

Lemma SkyMap__init__valid d ns cs u md s :
  SkyMap__init__ d ns cs u md = inr s -> valid_map s /\ SkyMap.data s = d.
Proof.
  unfold SkyMap__init__, valid_map.
  destruct ((ndim d =? 1)%nat || (ndim d =? 2)%nat) eqn:Hd; simpl; [| done].
  apply orb_true_iff in Hd. rewrite !Nat.eqb_eq in Hd.
  destruct ns as [n |].
  - destruct (Z.leb_spec n 0); [done |]. by intros [= <-].
  - by intros [= <-].
Qed.

(** A map the constructor accepted is returned unchanged by [copy], and by
    [smooth] after its one warning: the same samples, resolution,
    coordinate system, units and metadata, whatever the width asked for. *)
Theorem copy_and_smooth_return_the_map s fwhm :
  valid_map s ->
  copy s = ([], inr s) /\
  smooth s fwhm = ([UserWarning "Smoothing is not yet fully implemented"], inr s).
Proof.
  intros [Hd Hn]. unfold smooth, copy.
  rewrite SkyMap__init__ok by done. by destruct s.
Qed.

Lemma copy_and_smooth_return_the_map_witness :
  copy map_line = ([], inr map_line) /\
  smooth map_line 5 =
    ([UserWarning "Smoothing is not yet fully implemented"], inr map_line).
Proof.
  apply (copy_and_smooth_return_the_map map_line 5).
  split; [by left | reflexivity].
Defined.

(** What [cmd_decompress] of the command line does with the array it got
    back: whenever [decompress_skymap] returns an array, wrapping it with
    [SkyMap(data)] succeeds if the envelope announces one or two axes, and
    raises [SkyMapError] if it announces three or more. *)
Theorem decompressed_array_as_skymap d b :
  outcome (decompress_skymap (Dict d)) = inr b ->
  ((length (Env.shape d) <= 2)%nat ->
     SkyMap__init__ b None "galactic" "unknown" None =
       inr {| SkyMap.data := b; SkyMap.nside := None;
              SkyMap.coordinate_system := "galactic";
              SkyMap.units := "unknown"; SkyMap.metadata := [] |}) /\
  ((2 < length (Env.shape d))%nat ->
     SkyMap__init__ b None "galactic" "unknown" None =
       inl (SkyMapError "Sky map data must be 1D or 2D array")).
Proof.
  intros Hb%decompress_skymap_inr.
  destruct (_decompress_wavelet_inr d b Hb) as (Hs & Hbc & Hin).
  destruct (_decompress_wavelet_ok d Hs Hbc Hin) as (vs & js & _ & _ & Heq).
  rewrite Heq in Hb. injection Hb as <-.
  unfold SkyMap__init__, ndim. cbn [shape].
  destruct (Env.shape d) as [| h [| w [| k l]]]; [done | | |]; simpl.
  - split; [done | lia].
  - split; [done | lia].
  - split; [lia | done].
Qed.

Lemma decompressed_array_as_skymap_witness :
  SkyMap__init__ {| shape := [3%nat]; data := [3; 0; 2]%Q |}
      None "galactic" "unknown" None =
    inr {| SkyMap.data := {| shape := [3%nat]; data := [3; 0; 2]%Q |};
           SkyMap.nside := None;
           SkyMap.coordinate_system := "galactic";
           SkyMap.units := "unknown"; SkyMap.metadata := [] |}.
Proof.
  apply (decompressed_array_as_skymap envelope_repeated_index
           {| shape := [3%nat]; data := [3; 0; 2]%Q |}); [reflexivity |].
  simpl. lia.
Defined.

(** ** [downgrade] *)

Lemma length_bind_const {A B} (g : A -> list B) (l : list A) n :
  (forall i, length (g i) = n) -> length (l ≫= g) = (length l * n)%nat.
Proof.
  intros Hg. induction l as [| i l IH]; [done |].
  rewrite bind_cons, length_app, IH, Hg. simpl. lia.
Qed.

Lemma length_block_average h' w' w f x :
  length (block_average h' w' w f x) = (h' * w')%nat.
Proof.
  unfold block_average. rewrite (length_bind_const _ _ w').
  - by rewrite length_seq.
  - intros i. by rewrite length_fmap, length_seq.
Qed.

Lemma floor_div_positive n f : 0 < n -> 1 <= f -> (n / f <= 0 <-> n < f).
Proof.
  intros Hn Hf. split.
  - intros H. destruct (Z.lt_ge_cases n f) as [| Hge]; [done |].
    assert (0 < n / f) by (apply Z.div_str_pos; lia). lia.
  - intros H. rewrite Z.div_small; lia.
Qed.

Lemma rebuild_outcome s d f :
  valid_map s -> 1 <= f -> (ndim d = 1%nat \/ ndim d = 2%nat) ->
  SkyMap__init__ d ((fun n => n / f) <$> SkyMap.nside s)
      (SkyMap.coordinate_system s) (SkyMap.units s) (Some (SkyMap.metadata s)) =
    match SkyMap.nside s with
    | Some n =>
        if n <? f then inl (SkyMapError "nside must be positive")
        else inr {| SkyMap.data := d; SkyMap.nside := Some (n / f);
                    SkyMap.coordinate_system := SkyMap.coordinate_system s;
                    SkyMap.units := SkyMap.units s;
                    SkyMap.metadata := SkyMap.metadata s |}
    | None => inr {| SkyMap.data := d; SkyMap.nside := None;
                    SkyMap.coordinate_system := SkyMap.coordinate_system s;
                    SkyMap.units := SkyMap.units s;
                    SkyMap.metadata := SkyMap.metadata s |}
    end.
Proof.
  intros [_ Hn] Hf Hd. destruct (SkyMap.nside s) as [n |]; simpl.
  - destruct (Z.ltb_spec n f) as [Hlt | Hge].
    + unfold SkyMap__init__.
      assert ((ndim d =? 1)%nat || (ndim d =? 2)%nat = true) as ->.
      { apply orb_true_iff. rewrite !Nat.eqb_eq. done. }
      simpl. destruct (Z.leb_spec (n / f) 0) as [| H]; [done |].
      apply Z.lt_nge in H. destruct H. apply floor_div_positive; lia.
    + apply SkyMap__init__ok; [done |].
      destruct (Z.le_gt_cases (n / f) 0) as [H |]; [| done].
      apply floor_div_positive in H; lia.
  - by apply SkyMap__init__ok.
Qed.

Lemma downgrade_1d s (f : nat) :
  ndim (SkyMap.data s) = 1%nat -> (1 <= f)%nat ->
  downgrade s (Z.of_nat f) =
    ([downgrade_warning],
     SkyMap__init__
       {| shape := [ceil_div (npix s) f];
          data := (fun k => pixel s (k * f)) <$> seq 0 (ceil_div (npix s) f) |}
       ((fun n => n / Z.of_nat f) <$> SkyMap.nside s)
       (SkyMap.coordinate_system s) (SkyMap.units s) (Some (SkyMap.metadata s))).
Proof.
  intros Hd Hf. unfold downgrade, slice_step. rewrite Hd. simpl Nat.eqb. cbv iota.
  destruct (Z.eqb_spec (Z.of_nat f) 0) as [| _]; [lia |].
  destruct (Z.ltb_spec 0 (Z.of_nat f)) as [_ |]; [| lia].
  rewrite Zabs2Nat.id, length_fmap, length_seq.
  by destruct (SkyMap.nside s).
Qed.

Lemma downgrade_2d s (f h w : nat) :
  shape (SkyMap.data s) = [h; w] -> (1 <= f)%nat ->
  downgrade s (Z.of_nat f) =
    ([downgrade_warning],
     SkyMap__init__
       {| shape := [(h / f)%nat; (w / f)%nat];
          data := block_average (h / f) (w / f) w f (data (SkyMap.data s)) |}
       ((fun n => n / Z.of_nat f) <$> SkyMap.nside s)
       (SkyMap.coordinate_system s) (SkyMap.units s) (Some (SkyMap.metadata s))).
Proof.
  intros Hs Hf. unfold downgrade, ndim. rewrite Hs. simpl Nat.eqb. cbv iota.
  destruct (Z.eqb_spec (Z.of_nat f) 0) as [| _]; [lia |].
  destruct (Z.ltb_spec (Z.of_nat f) 0) as [| _]; [lia |].
  rewrite Nat2Z.id.
  by destruct (SkyMap.nside s).
Qed.

Lemma valid_map_shape s :
  valid_map s ->
  ndim (SkyMap.data s) = 1%nat \/ exists h w, shape (SkyMap.data s) = [h; w].
Proof.
  intros [[H | H] _]; [by left |]. right. unfold ndim in H.
  destruct (shape (SkyMap.data s)) as [| h [| w [| ? ?]]]; try done. by exists h, w.
Qed.

(** [downgrade] by a factor of at least one, on a map the constructor
    accepted, warns once and fails in one situation only: the map has a
    resolution parameter smaller than the factor, so that the quotient is
    zero and the constructor refuses it. *)
Theorem downgrade_refusal s (f : nat) e :
  valid_map s -> (1 <= f)%nat ->
  fst (downgrade s (Z.of_nat f)) = [downgrade_warning] /\
  (snd (downgrade s (Z.of_nat f)) = inl e <->
   e = SkyMapError "nside must be positive" /\
   exists n, SkyMap.nside s = Some n /\ n < Z.of_nat f).
Proof.
  intros Hv Hf.
  assert (exists d, (ndim d = 1%nat \/ ndim d = 2%nat) /\
    downgrade s (Z.of_nat f) =
      ([downgrade_warning],
       SkyMap__init__ d ((fun n => n / Z.of_nat f) <$> SkyMap.nside s)
         (SkyMap.coordinate_system s) (SkyMap.units s)
         (Some (SkyMap.metadata s)))) as (d & Hd & ->).
  { destruct (valid_map_shape s Hv) as [H1 | (h & w & H2)].
    - eexists. split; [| by apply downgrade_1d]. by left.
    - eexists. split; [| by eapply downgrade_2d]. by right. }
  split; [done |]. simpl. rewrite rebuild_outcome by (done || lia).
  destruct (SkyMap.nside s) as [n |].
  - destruct (Z.ltb_spec n (Z.of_nat f)).
    + split.
      * intros [= <-]. split; [done |]. by exists n.
      * by intros [-> _].
    + split; [done |]. intros [_ (n' & [= <-] & ?)]. lia.
  - split; [done |]. by intros [_ (n' & [=] & ?)].
Qed.

Lemma downgrade_refusal_witness :
  fst (downgrade map_line 3) = [downgrade_warning] /\
  (snd (downgrade map_line 3) = inl (SkyMapError "nside must be positive") <->
   SkyMapError "nside must be positive" = SkyMapError "nside must be positive" /\
   exists n, SkyMap.nside map_line = Some n /\ n < 3).
Proof.
  apply (downgrade_refusal map_line 3 (SkyMapError "nside must be positive")).
  - split; [by left | reflexivity].
  - lia.
Defined.

Lemma rebuild_allowed s d (f : nat) :
  valid_map s -> (1 <= f)%nat -> (ndim d = 1%nat \/ ndim d = 2%nat) ->
  nside_allows s (Z.of_nat f) ->
  SkyMap__init__ d ((fun n => n / Z.of_nat f) <$> SkyMap.nside s)
      (SkyMap.coordinate_system s) (SkyMap.units s) (Some (SkyMap.metadata s)) =
    inr {| SkyMap.data := d;
           SkyMap.nside := (fun n => n / Z.of_nat f) <$> SkyMap.nside s;
           SkyMap.coordinate_system := SkyMap.coordinate_system s;
           SkyMap.units := SkyMap.units s;
           SkyMap.metadata := SkyMap.metadata s |}.
Proof.
  intros Hv Hf Hd Ha. rewrite rebuild_outcome by (done || lia).
  unfold nside_allows in Ha. destruct (SkyMap.nside s) as [n |]; [| done].
  by destruct (Z.ltb_spec n (Z.of_nat f)); [lia |].
Qed.

Lemma valid_map_quotient s (f : nat) d cs u md :
  valid_map s -> (1 <= f)%nat -> nside_allows s (Z.of_nat f) ->
  (ndim d = 1%nat \/ ndim d = 2%nat) ->
  valid_map {| SkyMap.data := d;
               SkyMap.nside := (fun n => n / Z.of_nat f) <$> SkyMap.nside s;
               SkyMap.coordinate_system := cs; SkyMap.units := u;
               SkyMap.metadata := md |}.
Proof.
  intros [_ Hn] Hf Ha Hd. split; [done |]. simpl.
  unfold nside_allows in Ha. destruct (SkyMap.nside s) as [n |]; [| done].
  simpl. apply Z.div_str_pos. lia.
Qed.

(** [downgrade] of a one-dimensional map by a factor [f] of at least one
    that does not exceed the resolution parameter: the result has
    ceil(npix / f) pixels, its pixel [k] is pixel [k * f] of the input, its
    resolution parameter is the quotient by [f], the rest is carried over,
    and it is a map the constructor accepts. *)
Theorem downgrade_decimates_a_pixel_list s (f : nat) :
  valid_map s -> ndim (SkyMap.data s) = 1%nat -> (1 <= f)%nat ->
  nside_allows s (Z.of_nat f) ->
  exists s',
    downgrade s (Z.of_nat f) = ([downgrade_warning], inr s') /\
    valid_map s' /\
    shape (SkyMap.data s') = [ceil_div (npix s) f] /\
    npix s' = ceil_div (npix s) f /\
    (forall k, (k < npix s')%nat -> pixel s' k = pixel s (k * f)) /\
    SkyMap.nside s' = (fun n => n / Z.of_nat f) <$> SkyMap.nside s /\
    SkyMap.coordinate_system s' = SkyMap.coordinate_system s /\
    SkyMap.units s' = SkyMap.units s /\
    SkyMap.metadata s' = SkyMap.metadata s.
Proof.
  intros Hv Hd Hf Ha. eexists. split.
  { rewrite downgrade_1d by done. rewrite rebuild_allowed; by try left. }
  split; [apply valid_map_quotient; by try left |].
  unfold npix, pixel. cbn [SkyMap.data SkyMap.nside SkyMap.coordinate_system
    SkyMap.units SkyMap.metadata data shape].
  rewrite length_fmap, length_seq. repeat split.
  intros k Hk.
  rewrite nth_lookup, list_lookup_fmap, lookup_seq_lt by done. done.
Qed.

Lemma downgrade_decimates_a_pixel_list_witness :
  exists s',
    downgrade map_line 2 = ([downgrade_warning], inr s') /\
    valid_map s' /\
    shape (SkyMap.data s') = [ceil_div (npix map_line) 2] /\
    npix s' = ceil_div (npix map_line) 2 /\
    (forall k, (k < npix s')%nat -> pixel s' k = pixel map_line (k * 2)) /\
    SkyMap.nside s' = (fun n => n / 2) <$> SkyMap.nside map_line /\
    SkyMap.coordinate_system s' = SkyMap.coordinate_system map_line /\
    SkyMap.units s' = SkyMap.units map_line /\
    SkyMap.metadata s' = SkyMap.metadata map_line.
Proof.
  apply (downgrade_decimates_a_pixel_list map_line 2).
  - split; [by left | reflexivity].
  - reflexivity.
  - lia.
  - unfold nside_allows. simpl. lia.
Defined.

Lemma ceil_div_ge n f : (1 <= f)%nat -> (n <= ceil_div n f * f)%nat.
Proof.
  intros Hf. unfold ceil_div.
  pose proof (Nat.div_mod_eq (n + f - 1) f) as E.
  pose proof (Nat.mod_upper_bound (n + f - 1) f). nia.
Qed.

(** A one-dimensional map with the HEALPix pixel count 12 nside^2 loses
    that relation when downgraded by a factor between 2 and nside: the
    pixels are divided by the factor once, the resolution parameter too, so
    the result holds more than 12 nside'^2 pixels. *)
Theorem downgrade_breaks_the_healpix_count s (f : nat) n :
  valid_map s -> ndim (SkyMap.data s) = 1%nat ->
  SkyMap.nside s = Some n -> healpix_count s ->
  2 <= Z.of_nat f <= n ->
  exists s' n',
    downgrade s (Z.of_nat f) = ([downgrade_warning], inr s') /\
    SkyMap.nside s' = Some n' /\ 0 < n' /\
    12 * n' * n' < Z.of_nat (npix s').
Proof.
  intros Hv Hd Hn Hc Hf.
  assert (nside_allows s (Z.of_nat f)) as Ha.
  { unfold nside_allows. rewrite Hn. lia. }
  exists {| SkyMap.data :=
       {| shape := [ceil_div (npix s) f];
          data := (fun k => pixel s (k * f)) <$> seq 0 (ceil_div (npix s) f) |};
     SkyMap.nside := (fun n => n / Z.of_nat f) <$> SkyMap.nside s;
     SkyMap.coordinate_system := SkyMap.coordinate_system s;
     SkyMap.units := SkyMap.units s;
     SkyMap.metadata := SkyMap.metadata s |}, (n / Z.of_nat f).
  split.
  { rewrite downgrade_1d by (done || lia).
    rewrite rebuild_allowed; (done || lia || by left). }
  unfold healpix_count in Hc. rewrite Hn in Hc.
  unfold npix in *. cbn [SkyMap.data SkyMap.nside data].
  rewrite Hn, length_fmap, length_seq. split; [done |].
  assert (0 < n / Z.of_nat f) as Hq by (apply Z.div_str_pos; lia).
  split; [done |].
  pose proof (ceil_div_ge (length (data (SkyMap.data s))) f ltac:(lia)) as Hce.
  pose proof (Z.mul_div_le n (Z.of_nat f) ltac:(lia)) as Hm.
  set (q := n / Z.of_nat f) in *. set (c := ceil_div _ f) in *.
  assert (12 * n * n <= Z.of_nat c * Z.of_nat f) as H1 by lia.
  assert (q * Z.of_nat f * (q * Z.of_nat f) <= n * n) as H2 by nia.
  nia.
Qed.

Lemma downgrade_breaks_the_healpix_count_witness :
  exists s' n',
    downgrade map_line 2 = ([downgrade_warning], inr s') /\
    SkyMap.nside s' = Some n' /\ 0 < n' /\
    12 * n' * n' < Z.of_nat (npix s').
Proof.
  apply (downgrade_breaks_the_healpix_count map_line 2 2).
  - split; [by left | reflexivity].
  - reflexivity.
  - reflexivity.
  - reflexivity.
  - lia.
Defined.

(** ** Block averaging reads whole blocks *)

Lemma bind_ext_in {A B} (g g' : A -> list B) (l : list A) :
  (forall x, x ∈ l -> g x = g' x) -> l ≫= g = l ≫= g'.
Proof.
  induction l as [| x l IH]; intros H; [done |].
  rewrite !bind_cons, (H x) by by left. f_equal. apply IH.
  intros y Hy. apply H. by right.
Qed.

Lemma fmap_ext_in {A B} (g g' : A -> B) (l : list A) :
  (forall x, x ∈ l -> g x = g' x) -> g <$> l = g' <$> l.
Proof.
  intros H. apply list_fmap_ext. intros i x Hx. apply H.
  by eapply list_elem_of_lookup_2.
Qed.

Lemma block_average_ext h' w' w f x x2 :
  (forall i j, (i < h' * f)%nat -> (j < w' * f)%nat ->
     nth (i * w + j) x2 0%Q = nth (i * w + j) x 0%Q) ->
  block_average h' w' w f x2 = block_average h' w' w f x.
Proof.
  intros H. unfold block_average. apply bind_ext_in. intros i Hi%elem_of_seq.
  apply fmap_ext_in. intros j Hj%elem_of_seq. unfold block_mean.
  f_equal. f_equal. apply fmap_ext_in. intros a Ha%elem_of_seq.
  f_equal. apply fmap_ext_in. intros b Hb%elem_of_seq.
  apply H; nia.
Qed.

(** [downgrade] of a two-dimensional map of [h] rows and [w] columns, by a
    factor [f] of at least one that does not exceed the resolution
    parameter: the result has [h // f] rows and [w // f] columns, as many
    elements as that shape says, and the quotient of the resolution
    parameter; and it is the same for every map that differs only in the
    rows from [(h // f) * f] on and the columns from [(w // f) * f] on,
    which do not fill a block and are left out. *)
Theorem downgrade_averages_whole_blocks s (f h w : nat) (x2 : list Q) :
  valid_map s -> shape (SkyMap.data s) = [h; w] -> (1 <= f)%nat ->
  nside_allows s (Z.of_nat f) ->
  (forall i j, (i < h / f * f)%nat -> (j < w / f * f)%nat ->
     nth (i * w + j) x2 0%Q = nth (i * w + j) (data (SkyMap.data s)) 0%Q) ->
  exists s',
    downgrade s (Z.of_nat f) = ([downgrade_warning], inr s') /\
    downgrade (with_samples s x2) (Z.of_nat f) = ([downgrade_warning], inr s') /\
    valid_map s' /\
    shape (SkyMap.data s') = [(h / f)%nat; (w / f)%nat] /\
    well_formed (SkyMap.data s') /\
    SkyMap.nside s' = (fun n => n / Z.of_nat f) <$> SkyMap.nside s /\
    SkyMap.coordinate_system s' = SkyMap.coordinate_system s /\
    SkyMap.units s' = SkyMap.units s /\
    SkyMap.metadata s' = SkyMap.metadata s.
Proof.
  intros Hv Hs Hf Ha Hx. eexists. split.
  { rewrite (downgrade_2d s f _ _ Hs Hf).
    rewrite rebuild_allowed; by try right. }
  split.
  { assert (valid_map (with_samples s x2)) as Hv2.
    { destruct Hv as [Hd Hn]. split; [| done]. unfold ndim in *. simpl. done. }
    rewrite (downgrade_2d (with_samples s x2) f h w) by done.
    cbn [with_samples SkyMap.data SkyMap.nside SkyMap.coordinate_system
         SkyMap.units SkyMap.metadata data].
    rewrite (block_average_ext _ _ _ _ _ _ Hx).
    pose proof (rebuild_allowed (with_samples s x2)) as Hr.
    cbn [with_samples SkyMap.data SkyMap.nside SkyMap.coordinate_system
         SkyMap.units SkyMap.metadata] in Hr.
    rewrite Hr; by try right. }
  split; [apply valid_map_quotient; by try right |].
  cbn [SkyMap.data SkyMap.nside SkyMap.coordinate_system SkyMap.units
       SkyMap.metadata shape data].
  split_and!; try done.
  unfold well_formed. cbn [shape data product foldr].
  rewrite length_block_average. lia.
Qed.

Lemma downgrade_averages_whole_blocks_witness :
  exists s',
    downgrade map_odd 2 = ([downgrade_warning], inr s') /\
    downgrade (with_samples map_odd
                 [1; 2; 3; 4; 0; 5; 6; 7; 8; 0; 0; 0; 0; 0; 0]%Q) 2
      = ([downgrade_warning], inr s') /\
    shape (SkyMap.data s') = [1%nat; 2%nat] /\
    SkyMap.nside s' = Some 2.
Proof.
  destruct (downgrade_averages_whole_blocks map_odd 2 3 5
              [1; 2; 3; 4; 0; 5; 6; 7; 8; 0; 0; 0; 0; 0; 0]%Q)
    as (s' & H1 & H2 & _ & Hs & _ & Hn & _).
  - split; [by right | reflexivity].
  - reflexivity.
  - lia.
  - unfold nside_allows. simpl. lia.
  - intros i j Hi Hj. simpl in Hi, Hj.
    do 2 (destruct i as [| i]; [do 4 (destruct j as [| j]; [reflexivity |]); lia |]).
    lia.
  - exists s'. split; [exact H1 |]. split; [exact H2 |]. split; [exact Hs | exact Hn].
Defined.

(** ** [mask_pixels] *)

Lemma zip_with_mask_twice (fill : Q) (x : list Q) (b1 b2 : list bool) :
  zip_with (fun x keep => if keep : bool then x else fill)
    (zip_with (fun x keep => if keep : bool then x else fill) x b1) b2
  = zip_with (fun x keep => if keep : bool then x else fill) x (zip_with andb b1 b2).
Proof.
  revert b1 b2. induction x as [| v x IH]; intros [| k1 b1] [| k2 b2]; try done.
  simpl. rewrite IH. by destruct k1, k2.
Qed.

(** Masking twice with the same fill value is masking once with the
    conjunction of the two masks: a map masked by [m1] and then by [m2],
    both of its shape, is the map [mask_pixels] gives for the mask that
    keeps what both keep; and such a mask is never refused. *)
Theorem mask_pixels_twice s m1 m2 fill :
  mask_fits m1 s -> mask_fits m2 s ->
  exists s1 s2,
    mask_pixels s m1 fill = inr s1 /\
    mask_pixels s1 m2 fill = inr s2 /\
    mask_pixels s (mask_and m1 m2) fill = inr s2 /\
    npix s2 = npix s.
Proof.
  intros [H1 L1] [H2 L2]. unfold mask_pixels.
  rewrite (decide_False (P := bshape m1 <> _)) by (intros H; by apply H).
  do 2 eexists. split; [done |]. cbn [SkyMap.data shape data
    SkyMap.nside SkyMap.coordinate_system SkyMap.units SkyMap.metadata].
  rewrite (decide_False (P := bshape m2 <> _)) by (intros H; by apply H).
  split; [done |].
  rewrite (decide_False (P := bshape (mask_and m1 m2) <> _)) by (intros H; by apply H).
  split.
  - by rewrite zip_with_mask_twice.
  - unfold npix. cbn [SkyMap.data data]. rewrite !length_zip_with. lia.
Qed.

Lemma mask_pixels_twice_witness :
  exists s1 s2,
    mask_pixels map_grid mask_checker 0 = inr s1 /\
    mask_pixels s1 mask_left 0 = inr s2 /\
    mask_pixels map_grid (mask_and mask_checker mask_left) 0 = inr s2 /\
    npix s2 = npix map_grid.
Proof.
  apply (mask_pixels_twice map_grid mask_checker mask_left 0); by split.
Defined.

(** * Part VIII: the settings of [config] *)

(** ** The store *)

Lemma store_incl_refl h : store_incl h h.
Proof. intros l d H. by exists d. Qed.

Lemma store_incl_trans h1 h2 h3 :
  store_incl h1 h2 -> store_incl h2 h3 -> store_incl h1 h3.
Proof.
  intros H12 H23 l d H. destruct (H12 l d H) as (d2 & H2 & Hs2).
  destruct (H23 l d2 H2) as (d3 & H3 & Hs3). exists d3. split; [done |].
  by transitivity d2.
Qed.

Lemma store_incl_app h k : store_incl h (h ++ k).
Proof.
  intros l d H. exists d. split; [| done].
  rewrite lookup_app_l; [done |]. by eapply lookup_lt_Some.
Qed.

Lemma store_incl_insert h l d d' :
  h !! l = Some d -> d ⊆ d' -> store_incl h (<[l := d']> h).
Proof.
  intros Hl Hs l0 d0 H0. destruct (decide (l = l0)) as [<- | Hne].
  - exists d'. rewrite list_lookup_insert_eq by by eapply lookup_lt_Some.
    split; [done |]. assert (d0 = d) as -> by congruence. done.
  - exists d0. by rewrite list_lookup_insert_ne.
Qed.

Lemma getitem_path_incl h h' value keys x :
  store_incl h h' ->
  getitem_path h value keys = Some x -> getitem_path h' value keys = Some x.
Proof.
  intros Hi. revert value. induction keys as [| k keys IH]; intros value; [done |].
  simpl. destruct value as [| | | | | | l]; try done.
  destruct (h !! l) as [d |] eqn:Hl; [| done]. simpl.
  destruct (d !! k) as [v |] eqn:Hk; [| done]. simpl. intros Hx.
  destruct (Hi l d Hl) as (d' & -> & Hs). simpl.
  rewrite (lookup_weaken _ _ _ _ Hk Hs). simpl. by apply IH.
Qed.

Lemma getitem_path_app h value pre keys a :
  getitem_path h value pre = Some a ->
  getitem_path h value (pre ++ keys) = getitem_path h a keys.
Proof.
  revert value. induction pre as [| k pre IH]; intros value; simpl.
  { by intros [= ->]. }
  destruct value as [| | | | | | l]; try done.
  destruct (h !! l) as [d |]; [| done]. simpl.
  destruct (d !! k) as [v |]; [| done]. simpl. apply IH.
Qed.

Lemma set_loop_follow h value pre keys a :
  getitem_path h value pre = Some a ->
  set_loop h value (pre ++ keys) = set_loop h a keys.
Proof.
  revert value. induction pre as [| k pre IH]; intros value; simpl.
  { by intros [= ->]. }
  destruct value as [| | | | | | l]; try done.
  destruct (h !! l) as [d |]; [| done]. simpl.
  destruct (d !! k) as [v |]; [| done]. simpl. apply IH.
Qed.

Lemma str_split_nonempty sep s : str_split sep s <> [].
Proof.
  destruct s as [| c s]; [done |]. simpl.
  destruct (Ascii.eqb c sep); [done |]. by destruct (str_split sep s).
Qed.

(** ** Settings below a section outlive [reset_config] *)

(** Where the global configuration and [DEFAULT_CONFIG] hold the same
    dictionary under a section (as they do after import, the copy being
    shallow), [set_config_value] on a key of that section writes into
    [DEFAULT_CONFIG] itself: the value is read back, it is still read
    back after [reset_config], and the configuration [reset_config]
    installs shares the section again. *)
Theorem reset_config_keeps_a_nested_setting w key section k l v dflt :
  str_split dot key = [section; k] ->
  shares_section w section l ->
  exists w1,
    set_config_value w key v = (w1, inr tt) /\
    get_config_value w1 key dflt = v /\
    get_config_value (reset_config w1) key dflt = v /\
    getitem_path (World.objects w1) (PDict DEFAULT_CONFIG) [section; k] = Some v /\
    shares_section (reset_config w1) section l.
Proof.
  intros Hkey (Hl & HlG & (d & Hd) & H0 & HG).
  destruct w as [h G]. cbn [World.objects World._global_config] in *.
  unfold set_config_value, Config_set. cbn [World.objects World._global_config].
  rewrite Hkey. cbn [removelast List.last].
  change [section] with ([section] ++ []) at 1.
  rewrite (set_loop_follow _ _ _ _ _ HG). cbn [set_loop]. rewrite Hd.
  eexists. split; [done |].
  set (h1 := <[l := <[k := v]> d]> h).
  assert (l < length h)%nat as Hlt by by eapply lookup_lt_Some.
  assert (h1 !! l = Some (<[k := v]> d)) as Hl1 by by apply list_lookup_insert_eq.
  assert (forall c, c <> l -> getitem_path h (PDict c) [section] = Some (PDict l) ->
            getitem_path h1 (PDict c) [section; k] = Some v /\
            getitem_path h1 (PDict c) [section] = Some (PDict l)) as Hkeep.
  { intros c Hc Hsec. simpl in Hsec.
    destruct (h !! c) as [dc |] eqn:Hhc; [| done]. simpl in Hsec.
    destruct (dc !! section) as [x |] eqn:Hx; [| done]. simpl in Hsec.
    injection Hsec as ->.
    assert (h1 !! c = Some dc) as Hc1.
    { unfold h1. by rewrite list_lookup_insert_ne. }
    simpl. rewrite Hc1. simpl. rewrite Hx. simpl. rewrite Hl1. simpl.
    by rewrite lookup_insert_eq. }
  destruct (Hkeep DEFAULT_CONFIG ltac:(done) H0) as [H0k H0s].
  destruct (Hkeep G ltac:(done) HG) as [HGk HGs].
  unfold get_config_value, Config_get, reset_config, Config__init__.
  cbn [World.objects World._global_config]. rewrite Hkey.
  assert (forall keys x,
            getitem_path h1 (PDict DEFAULT_CONFIG) keys = Some x -> keys <> [] ->
            getitem_path (h1 ++ [default ∅ (h1 !! DEFAULT_CONFIG)])
              (PDict (length h1)) keys = Some x) as Hcopy.
  { intros [| k0 keys] x Hx Hne; [done |]. simpl in *.
    rewrite list_lookup_middle by done. simpl.
    destruct (h1 !! DEFAULT_CONFIG) as [d0 |]; [| done]. simpl in *.
    destruct (d0 !! k0) as [v0 |]; [| done]. simpl in *.
    eapply getitem_path_incl; [apply store_incl_app | done]. }
  split_and!.
  - by rewrite HGk.
  - by rewrite (Hcopy _ _ H0k).
  - done.
  - assert (length h1 = length h) as Hlen by (unfold h1; by rewrite length_insert).
    unfold shares_section. cbn [World.objects World._global_config].
    split_and!.
    + done.
    + lia.
    + exists (<[k := v]> d). rewrite lookup_app_l by lia. done.
    + eapply getitem_path_incl; [apply store_incl_app | done].
    + by apply Hcopy.
Qed.

(** ** Top-level settings do not *)

(** A key without a full stop is written into the global configuration's
    own dictionary: the value is read back, [DEFAULT_CONFIG]'s dictionary
    is untouched, and after [reset_config] the key reads what
    [DEFAULT_CONFIG] holds under it, or the default given if it holds
    nothing. *)
Theorem reset_config_restores_a_top_level_setting w key k v dflt :
  str_split dot key = [k] ->
  World._global_config w <> DEFAULT_CONFIG ->
  is_Some (World.objects w !! World._global_config w) ->
  exists w1,
    set_config_value w key v = (w1, inr tt) /\
    get_config_value w1 key dflt = v /\
    World.objects w1 !! DEFAULT_CONFIG = World.objects w !! DEFAULT_CONFIG /\
    get_config_value (reset_config w1) key dflt =
      default dflt (getitem_path (World.objects w) (PDict DEFAULT_CONFIG) [k]).
Proof.
  intros Hkey HG [d Hd]. destruct w as [h G].
  cbn [World.objects World._global_config] in *.
  unfold set_config_value, Config_set. cbn [World.objects World._global_config].
  rewrite Hkey. cbn [removelast List.last set_loop]. rewrite Hd.
  eexists. split; [done |].
  assert (G < length h)%nat as Hlt by by eapply lookup_lt_Some.
  set (h1 := <[G := <[k := v]> d]> h).
  assert (length h1 = length h) as Hlen by (unfold h1; by rewrite length_insert).
  assert (h1 !! DEFAULT_CONFIG = h !! DEFAULT_CONFIG) as H0.
  { unfold h1. by rewrite list_lookup_insert_ne. }
  unfold get_config_value, Config_get, reset_config, Config__init__.
  cbn [World.objects World._global_config]. rewrite Hkey. split_and!.
  - simpl. unfold h1. rewrite list_lookup_insert_eq by done. simpl.
    by rewrite lookup_insert_eq.
  - done.
  - simpl. rewrite list_lookup_middle by done. simpl. rewrite H0.
    destruct (h !! DEFAULT_CONFIG) as [d0 |] eqn:E; [done |].
    apply lookup_ge_None in E. unfold DEFAULT_CONFIG in *. lia.
Qed.

(** ** New settings *)

Lemma hd_app_last (ks : list string) (k : string) : hd "" (ks ++ [k]) = hd k ks.
Proof. by destruct ks. Qed.

Lemma set_loop_new_path (ks : list string) (k : string) (h : store) l d v :
  h !! l = Some d -> d !! hd k ks = None ->
  exists h' l' d',
    set_loop h (PDict l) ks = (h', inr (PDict l')) /\
    h' !! l' = Some d' /\
    store_incl h (<[l' := <[k := v]> d']> h') /\
    getitem_path (<[l' := <[k := v]> d']> h') (PDict l) (ks ++ [k]) = Some v.
Proof.
  revert h l d. induction ks as [| k0 ks IH]; intros h l d Hl Hnew.
  - exists h, l, d. simpl in *. split_and!; [done | done | |].
    + eapply store_incl_insert; [done |]. by apply insert_subseteq.
    + rewrite list_lookup_insert_eq by by eapply lookup_lt_Some. simpl.
      by rewrite lookup_insert_eq.
  - simpl in Hnew. simpl. rewrite Hl, Hnew.
    assert (l < length h)%nat as Hlt by by eapply lookup_lt_Some.
    set (h1 := <[l := <[k0 := PDict (length h)]> d]> (h ++ [∅])).
    assert (h1 !! length h = Some ∅) as Hfresh.
    { unfold h1. rewrite list_lookup_insert_ne by lia. by apply list_lookup_middle. }
    assert (store_incl h h1) as Hincl.
    { eapply store_incl_trans; [apply (store_incl_app h [∅]) |].
      eapply store_incl_insert.
      - rewrite lookup_app_l by done. done.
      - by apply insert_subseteq. }
    destruct (IH h1 (length h) ∅ Hfresh (lookup_empty _)) as (h' & l' & d' & Hset & Hl' & Hi & Hget).
    exists h', l', d'. split_and!; [done | done | |].
    + by eapply store_incl_trans.
    + assert (h1 !! l = Some (<[k0 := PDict (length h)]> d)) as Hl1.
      { unfold h1. apply list_lookup_insert_eq. rewrite length_app. simpl. lia. }
      destruct (Hi l _ Hl1) as (dl & -> & Hsub). simpl.
      rewrite (lookup_weaken _ _ k0 (PDict (length h)) (lookup_insert_eq _ _ _) Hsub).
      simpl. done.
Qed.

(** On a key whose first segment the global configuration does not
    hold, whatever the number of segments, [set_config_value] returns
    normally, having created the dictionaries on the way; the value is
    read back under the key, and whatever could be read before, from any
    value along any keys, reads the same. *)
Theorem set_config_value_creates_the_path w key v dflt d :
  World.objects w !! World._global_config w = Some d ->
  d !! hd "" (str_split dot key) = None ->
  exists w1,
    set_config_value w key v = (w1, inr tt) /\
    get_config_value w1 key dflt = v /\
    forall start keys x,
      getitem_path (World.objects w) start keys = Some x ->
      getitem_path (World.objects w1) start keys = Some x.
Proof.
  intros Hd Hnew. destruct w as [h G]. cbn [World.objects World._global_config] in *.
  pose proof (app_removelast_last "" (str_split_nonempty dot key)) as Hkeys.
  set (ks := removelast (str_split dot key)) in *.
  set (k := List.last (str_split dot key) "") in *.
  rewrite Hkeys, hd_app_last in Hnew.
  destruct (set_loop_new_path ks k h G d v Hd Hnew) as (h' & l' & d' & Hset & Hl' & Hi & Hget).
  unfold set_config_value, Config_set. cbn [World.objects World._global_config].
  fold ks k. rewrite Hset, Hl'. eexists. split; [done |].
  unfold get_config_value, Config_get. cbn [World.objects World._global_config].
  split.
  - by rewrite Hkeys, Hget.
  - intros start keys x. by apply getitem_path_incl.
Qed.

(** ** Keys that run through a setting *)

(** On a key that runs through a setting that is not a dictionary,
    [set_config_value] ends in [TypeError] and leaves the store as it
    was, and [get_config_value] returns the default given. *)
Theorem set_config_value_through_a_setting w key pre k rest a v dflt :
  str_split dot key = pre ++ k :: rest ->
  getitem_path (World.objects w) (PDict (World._global_config w)) pre = Some a ->
  ~ is_dict a ->
  set_config_value w key v = (w, inl TypeError) /\
  get_config_value w key dflt = dflt.
Proof.
  intros Hkey Hpre Ha. destruct w as [h G].
  cbn [World.objects World._global_config] in *.
  unfold set_config_value, get_config_value, Config_set, Config_get.
  cbn [World.objects World._global_config]. rewrite Hkey. split.
  - rewrite removelast_app by done.
    rewrite (set_loop_follow _ _ _ _ _ Hpre).
    destruct (removelast (k :: rest)) as [| k' ks']; simpl;
      destruct a as [| | | | | | l]; try done; destruct Ha; by exists l.
  - rewrite (getitem_path_app _ _ _ _ _ Hpre). simpl.
    destruct a as [| | | | | | l]; try done. destruct Ha. by exists l.
Qed.

Lemma reset_config_keeps_a_nested_setting_witness :
  exists w1,
    set_config_value import_config "compression.default_method" (PStr "pca") = (w1, inr tt) /\
    get_config_value w1 "compression.default_method" PNone = PStr "pca" /\
    get_config_value (reset_config w1) "compression.default_method" PNone = PStr "pca" /\
    getitem_path (World.objects w1) (PDict DEFAULT_CONFIG) ["compression"; "default_method"]
      = Some (PStr "pca") /\
    shares_section (reset_config w1) "compression" 1.
Proof.
  apply (reset_config_keeps_a_nested_setting import_config
           "compression.default_method" "compression" "default_method" 1
           (PStr "pca") PNone).
  - reflexivity.
  - unfold shares_section. split_and!; [done | done | by eexists | reflexivity | reflexivity].
Defined.

Lemma reset_config_restores_a_top_level_setting_witness :
  exists w1,
    set_config_value import_config "compression" (PInt 3) = (w1, inr tt) /\
    get_config_value w1 "compression" PNone = PInt 3 /\
    World.objects w1 !! DEFAULT_CONFIG = World.objects import_config !! DEFAULT_CONFIG /\
    get_config_value (reset_config w1) "compression" PNone =
      default PNone (getitem_path (World.objects import_config) (PDict DEFAULT_CONFIG)
                       ["compression"]).
Proof.
  apply (reset_config_restores_a_top_level_setting import_config
           "compression" "compression" (PInt 3) PNone).
  - reflexivity.
  - done.
  - by eexists.
Defined.

Lemma set_config_value_creates_the_path_witness :
  exists w1,
    set_config_value import_config "user.name.first" (PStr "x") = (w1, inr tt) /\
    get_config_value w1 "user.name.first" PNone = PStr "x" /\
    forall start keys x,
      getitem_path (World.objects import_config) start keys = Some x ->
      getitem_path (World.objects w1) start keys = Some x.
Proof.
  eapply (set_config_value_creates_the_path import_config
           "user.name.first" (PStr "x") PNone).
  - reflexivity.
  - reflexivity.
Defined.

Lemma set_config_value_through_a_setting_witness :
  set_config_value import_config "compression.default_method.x" (PInt 1)
    = (import_config, inl TypeError) /\
  get_config_value import_config "compression.default_method.x" PNone = PNone.
Proof.
  apply (set_config_value_through_a_setting import_config
           "compression.default_method.x" ["compression"; "default_method"] "x" []
           (PStr "wavelet") (PInt 1) PNone).
  - reflexivity.
  - reflexivity.
  - by intros [l ?].
Defined.
